(** * Pet-a-Cat game components: GameComponent, TextComponent, Scoreboard, Timer

    A shallow embedding of [src/game-components.js].

    The components are constructor functions whose private state lives in
    closures.  The embedding makes that state explicit:

    - the host page ([Host]) holds the elements reachable through
      [document.getElementById], the [innerText] of every element, the list
      of active intervals of [setInterval] / [clearInterval], and a trace of
      the host calls made so far;
    - a [Scoreboard] never hands a closure to the host, so its closure
      variables are a record threaded through its methods;
    - a [Timer] registers its tick closure with [setInterval]; the closure
      shares [timeRemaining], [intervalId] and the public field
      [countdownTimerEndCallback] with the methods of the same instance, so
      the instances live in an object store ([heap]) and an active interval
      remembers the address of the instance whose tick it runs.

    Numbers are the integers of the specification, held in [Z]; the
    template literals render them in decimal, as JavaScript does for every
    integer of magnitude below 10^21.  JavaScript numbers are binary64
    values, so [score += value] is the exact sum rounded to a 53-bit
    significand ([js_add]): it is the sum itself exactly when that is a safe
    integer.  The remaining time of a Timer moves down by one per tick
    from its duration, which is exact as long as it is a safe integer; it
    is kept as the integer it is.  Functions assigned to
    [countdownTimerEndCallback] belong to the application, not to this
    repository: a callback is modelled by its name, and calling it records
    an event in the host trace. *)

From Stdlib Require Import ZArith Permutation.
From stdpp Require Import gmap strings list fin_maps pretty.

Open Scope Z_scope.

(** ** Completions: a call returns normally or throws *)

Record JsError := mkError { err_name : string; err_message : string }.

Inductive completion (A : Type) : Type :=
| Normal (a : A)
| Throw (e : JsError).
Arguments Normal {A} a.
Arguments Throw {A} e.

(** A computation over a state [S]: it ends with a completion, and the state
    changes made before a throw stay made. *)
Definition Js (S A : Type) : Type := S → completion A * S.

Definition js_ret {S A} (a : A) : Js S A := λ s, (Normal a, s).

Definition js_throw {S A} (e : JsError) : Js S A := λ s, (Throw e, s).

Definition js_bind {S A B} (m : Js S A) (k : A → Js S B) : Js S B :=
  λ s, match m s with
       | (Normal a, s') => k a s'
       | (Throw e, s') => (Throw e, s')
       end.

(** A statement that only changes the state. *)
Definition js_do {S} (f : S → S) : Js S unit := λ s, (Normal tt, f s).

Notation "x ⇐ m ;; k" := (js_bind m (λ x, k))
  (at level 100, m at next level, right associativity).
Notation "m ;;; k" := (js_bind m (λ _, k))
  (at level 100, right associativity).

(** ** The host page *)

(** An element of the document is an opaque handle. *)
Definition Element := nat.
(** The address of a [Timer] instance in the object store. *)
Definition addr := nat.

(** The calls the components make into the host, in program order. *)
Inductive Event : Type :=
| EvSetText (el : Element) (value : string)     (* el.innerText = value *)
| EvSetInterval (id : positive) (owner : addr)  (* setInterval(tick of owner, 1000) returned id *)
| EvClearInterval (id : positive)               (* clearInterval(id) *)
| EvCall (f : string).                          (* the callback named f was called *)

Global Instance Event_eq_dec : EqDecision Event.
Proof. solve_decision. Defined.

Record Host := mkHost {
  elementsById : gmap string Element;  (* document.getElementById *)
  innerText : gmap Element string;     (* the text shown by each element *)
  intervals : gmap positive addr;      (* active intervals: id -> instance whose tick runs *)
  next_interval : positive;            (* the id the next setInterval returns *)
  trace : list Event
}.

Definition getElementById (id : string) (h : Host) : option Element :=
  elementsById h !! id.

Definition log (e : Event) (h : Host) : Host :=
  mkHost (elementsById h) (innerText h) (intervals h) (next_interval h)
         (trace h ++ [e]).

(** [setInterval] returns a fresh positive id and keeps the callback active
    until that id is cleared. *)
Definition setInterval (owner : addr) (h : Host) : positive * Host :=
  let id := next_interval h in
  (id, mkHost (elementsById h) (innerText h) (<[id := owner]> (intervals h))
              (Pos.succ id) (trace h ++ [EvSetInterval id owner])).

(** [clearInterval] cancels the interval; an id that is not active is
    ignored. *)
Definition clearInterval (id : positive) (h : Host) : Host :=
  mkHost (elementsById h) (innerText h) (delete id (intervals h))
         (next_interval h) (trace h ++ [EvClearInterval id]).

(** ** GameComponent *)

Record GameComponent := mkGameComponent { getElement : Element }.

Definition dquote : string := String (Ascii.ascii_of_nat 34) EmptyString.

Definition HtmlElementNotFound (id : string) : JsError :=
  mkError "HtmlElementNotFound"
          ("No element exists with id=" +:+ dquote +:+ id +:+ dquote +:+ ".").

Definition GameComponent_new (idValue : string) : Js Host GameComponent :=
  λ h,
  let id := idValue in
  let element := getElementById id h in
  match element with
  | None => js_throw (HtmlElementNotFound id) h
  | Some element => js_ret (mkGameComponent element) h
  end.

(** ** TextComponent (GameComponent <- TextComponent) *)

(** [TextComponent.call(this, idValue)] runs the GameComponent constructor on
    the same object; [setText] lives on the prototype. *)
Definition TextComponent_new (idValue : string) : Js Host GameComponent :=
  GameComponent_new idValue.

Definition setText (this : GameComponent) (value : string) (h : Host) : Host :=
  mkHost (elementsById h) (<[getElement this := value]> (innerText h))
         (intervals h) (next_interval h)
         (trace h ++ [EvSetText (getElement this) value]).

(** The text an element shows. *)
Definition displayed (el : Element) (h : Host) : option string :=
  innerText h !! el.

(** ** Numbers that are integers *)

(** The binary64 number nearest to the integer [z], ties to even: integers
    below 2^53 in magnitude are numbers themselves; beyond that the spacing
    of the numbers is the power of two [u] that leaves 53 significant bits.
    (The finite range, below 2^1024, is all the model covers.) *)
Definition round53 (z : Z) : Z :=
  let m := Z.abs z in
  if m <? 2 ^ 53 then z
  else
    let u := 2 ^ (Z.log2 m - 52) in
    let q := m / u in
    let r := m mod u in
    let q' := if 2 * r <? u then q
              else if u <? 2 * r then q + 1
              else if Z.even q then q else q + 1 in
    Z.sgn z * (q' * u).

(** [x + y] on numbers: the exact sum, rounded. *)
Definition js_add (x y : Z) : Z := round53 (x + y).

Global Arguments round53 : simpl never.
Global Arguments js_add : simpl never.

(** [Number.isSafeInteger]: an integer of magnitude at most 2^53 - 1. *)
Definition safe (z : Z) : Prop := Z.abs z < 2 ^ 53.

Global Instance safe_dec z : Decision (safe z).
Proof. unfold safe. apply _. Defined.

(** Every running total of [s], [s + d1], [s + d1 + d2], ... after the
    first is a safe integer. *)
Fixpoint running_safe (s : Z) (ds : list Z) : Prop :=
  match ds with
  | [] => True
  | d :: rest => safe (s + d) ∧ running_safe (s + d) rest
  end.

Global Instance running_safe_dec ds : ∀ s, Decision (running_safe s ds).
Proof. induction ds as [|d ds IH]; intros s; simpl; apply _. Defined.

(** ** Scoreboard (GameComponent <- TextComponent <- Scoreboard) *)

Module Scoreboard.

Record t := mk {
  component : GameComponent;
  initialValue : Z;
  score : Z
}.

Definition updateDisplay (this : t) (h : Host) : Host :=
  setText (component this) ("Score: " +:+ pretty (score this)) h.

(** [initialValue = 0] is a default parameter: an omitted argument is [None]. *)
Definition new (idValue : string) (initialValue : option Z) : Js Host t :=
  let initialValue := default 0 initialValue in
  let score := initialValue in
  c ⇐ TextComponent_new idValue ;;
  let this := mk c initialValue score in
  js_do (updateDisplay this) ;;;
  js_ret this.

Definition update (value : Z) (this : t) (h : Host) : t * Host :=
  let this' := mk (component this) (initialValue this)
                  (js_add (score this) value) in
  (this', updateDisplay this' h).

Definition reset (this : t) (h : Host) : t * Host :=
  let this' := mk (component this) (initialValue this) (initialValue this) in
  (this', updateDisplay this' h).

(** The text shown by the element of the scoreboard. *)
Definition display (this : t) (h : Host) : option string :=
  displayed (getElement (component this)) h.

(** The display agrees with the private score. *)
Definition in_sync (this : t) (h : Host) : Prop :=
  display this h = Some ("Score: " +:+ pretty (score this)).

(** A run of [update] calls, in list order. *)
Fixpoint updates (values : list Z) (this : t) (h : Host) : t * Host :=
  match values with
  | [] => (this, h)
  | v :: rest => let '(this', h') := update v this h in updates rest this' h'
  end.

(** The calls an application can make on a scoreboard. *)
Inductive call := CallUpdate (value : Z) | CallReset.

Definition step (c : call) (this : t) (h : Host) : t * Host :=
  match c with
  | CallUpdate v => update v this h
  | CallReset => reset this h
  end.

Fixpoint run (cs : list call) (this : t) (h : Host) : t * Host :=
  match cs with
  | [] => (this, h)
  | c :: rest => let '(this', h') := step c this h in run rest this' h'
  end.

End Scoreboard.

(** ** Timer (GameComponent <- TextComponent <- Timer) *)

(** The values the public field [countdownTimerEndCallback] takes: [null],
    [undefined], or a function of the application. *)
Inductive Callback : Type :=
| JNull
| JUndefined
| JFunction (f : string).

Global Instance Callback_eq_dec : EqDecision Callback.
Proof. solve_decision. Defined.

Module Timer.

Record t := mk {
  component : GameComponent;
  initialTime : Z;
  timeRemaining : Z;
  intervalId : option positive;          (* [None] is undefined *)
  countdownTimerEndCallback : Callback
}.

Definition set_timeRemaining (v : Z) (this : t) : t :=
  mk (component this) (initialTime this) v (intervalId this)
     (countdownTimerEndCallback this).

Definition set_intervalId (id : positive) (this : t) : t :=
  mk (component this) (initialTime this) (timeRemaining this) (Some id)
     (countdownTimerEndCallback this).

Definition set_callback (v : Callback) (this : t) : t :=
  mk (component this) (initialTime this) (timeRemaining this)
     (intervalId this) v.

Definition updateDisplay (this : t) (h : Host) : Host :=
  setText (component this) ("Time: " +:+ pretty (timeRemaining this)) h.

(** [if (intervalId)]: undefined is falsy, an interval id is a positive
    number and so truthy. *)
Definition truthy (id : option positive) : bool :=
  match id with Some _ => true | None => false end.

(** [clearInterval(intervalId)] on the variable as it is; the host ignores
    undefined. *)
Definition clearInterval_var (id : option positive) (h : Host) : Host :=
  match id with
  | Some i => clearInterval i h
  | None => h
  end.

(** [x != null] is false for null and undefined only. *)
Definition not_null (v : Callback) : bool :=
  match v with
  | JNull | JUndefined => false
  | JFunction _ => true
  end.

Definition invoke (v : Callback) (h : Host) : Host :=
  match v with
  | JFunction f => log (EvCall f) h
  | _ => h
  end.

(** The body of [this.reset]. *)
Definition reset_body (this : t) (h : Host) : t * Host :=
  let h1 := if truthy (intervalId this)
            then clearInterval_var (intervalId this) h
            else h in
  let this' := set_timeRemaining (initialTime this) this in
  (this', updateDisplay this' h1).

(** The arrow function handed to [setInterval]: one tick. *)
Definition tick (this : t) (h : Host) : t * Host :=
  let this' := set_timeRemaining (timeRemaining this - 1) this in
  let h1 := updateDisplay this' h in
  if decide (timeRemaining this' = 0) then
    let h2 := clearInterval_var (intervalId this') h1 in
    if not_null (countdownTimerEndCallback this')
    then (this', invoke (countdownTimerEndCallback this') h2)
    else (this', h2)
  else (this', h1).

(** The body of [this.startCountdown]; [self] is the address of the
    instance, which the tick closure captures. *)
Definition startCountdown_body (self : addr) (this : t) (h : Host) : t * Host :=
  let '(id, h1) := setInterval self h in
  (set_intervalId id this, h1).

End Timer.

(** ** The world: the Timer instances and the host *)

Record World := mkWorld {
  heap : gmap addr Timer.t;
  host : Host
}.

(** Run a method body on the instance at [a]. *)
Definition on_instance (a : addr) (body : Timer.t → Host → Timer.t * Host)
    (w : World) : World :=
  match heap w !! a with
  | Some this =>
      let '(this', h') := body this (host w) in
      mkWorld (<[a := this']> (heap w)) h'
  | None => w
  end.

(** A host computation, run in a world. *)
Definition in_host {A} (m : Js Host A) : Js World A :=
  λ w, let '(c, h') := m (host w) in (c, mkWorld (heap w) h').

(** The instance under construction gets a fresh address in the store. *)
Definition allocate (this : Timer.t) : Js World addr :=
  λ w, let a := fresh (dom (heap w)) in
       (Normal a, mkWorld (<[a := this]> (heap w)) (host w)).

Definition Timer_new (idValue : string) (initialTimeValue : Z) : Js World addr :=
  c ⇐ in_host (TextComponent_new idValue) ;;
  let initialTime := initialTimeValue in
  let this := Timer.mk c initialTime initialTime None JNull in
  a ⇐ allocate this ;;
  in_host (js_do (Timer.updateDisplay this)) ;;;
  js_ret a.

Definition Timer_reset (a : addr) (w : World) : World :=
  on_instance a Timer.reset_body w.

Definition Timer_startCountdown (a : addr) (w : World) : World :=
  on_instance a (Timer.startCountdown_body a) w.

(** [timer.countdownTimerEndCallback = v] by the application. *)
Definition Timer_assign_callback (a : addr) (v : Callback) (w : World) : World :=
  on_instance a (λ this h, (Timer.set_callback v this, h)) w.

(** The host lets one period of interval [id] elapse: when [id] is active its
    callback runs, otherwise nothing happens. *)
Definition fire (id : positive) (w : World) : World :=
  match intervals (host w) !! id with
  | Some a => on_instance a Timer.tick w
  | None => w
  end.

(** [n] periods of interval [id] in a row. *)
Definition fires (n : nat) (id : positive) (w : World) : World :=
  Nat.iter n (fire id) w.

(** What can happen to a world: the application calls a method or assigns the
    callback field of some instance, constructs a new Timer, or the host fires
    an interval. *)
Inductive Action : Type :=
| ActNew (idValue : string) (initialTimeValue : Z)
| ActStart (a : addr)
| ActReset (a : addr)
| ActAssign (a : addr) (v : Callback)
| ActFire (id : positive).

Global Instance Action_eq_dec : EqDecision Action.
Proof. solve_decision. Defined.

Definition act (x : Action) (w : World) : World :=
  match x with
  | ActNew idValue n => (Timer_new idValue n w).2
  | ActStart a => Timer_startCountdown a w
  | ActReset a => Timer_reset a w
  | ActAssign a v => Timer_assign_callback a v w
  | ActFire id => fire id w
  end.

Definition run (xs : list Action) (w : World) : World :=
  foldl (λ w x, act x w) w xs.

(** ** Observing a Timer *)

(** The field of the instance at [a], when it exists. *)
Definition field {A} (f : Timer.t → A) (a : addr) (w : World) : option A :=
  f <$> heap w !! a.

(** The text shown by the element of the instance at [a]. *)
Definition display (a : addr) (w : World) : option string :=
  this ← heap w !! a; displayed (getElement (Timer.component this)) (host w).

(** ** The states of a Timer *)

(** The active intervals whose callback is the tick of instance [a]. *)
Definition active_ticks (a : addr) (w : World) : gset positive :=
  dom (filter (λ kv : positive * addr, kv.2 = a) (intervals (host w))).

(** Idle: no active tick. *)
Definition Idle (a : addr) (w : World) : Prop :=
  active_ticks a w = ∅.

(** Running: the one active tick is the one [startCountdown] stored in
    [intervalId]. *)
Definition Running (a : addr) (id : positive) (w : World) : Prop :=
  field Timer.intervalId a w = Some (Some id) ∧ active_ticks a w = {[id]}.

Global Instance Idle_dec a w : Decision (Idle a w).
Proof. unfold Idle. apply _. Defined.

Global Instance Running_dec a id w : Decision (Running a id w).
Proof. unfold Running. apply _. Defined.

(** The callbacks called so far, oldest first. *)
Definition calls (tr : list Event) : list string :=
  omap (λ e, match e with EvCall f => Some f | _ => None end) tr.

(** The ids passed to [clearInterval] so far, oldest first. *)
Definition cleared (tr : list Event) : list positive :=
  omap (λ e, match e with EvClearInterval id => Some id | _ => None end) tr.

(** The function the zero tick calls for a given field value. *)
Definition fired (v : Callback) : list string :=
  match v with
  | JFunction f => [f]
  | JNull | JUndefined => []
  end.

(** At most one active tick for the instance at [a]. *)
Definition at_most_one_tick (a : addr) (w : World) : Prop :=
  (size (active_ticks a w) ≤ 1)%nat.

Global Instance at_most_one_tick_dec a w : Decision (at_most_one_tick a w).
Proof. unfold at_most_one_tick. apply _. Defined.

(** The worlds a sequence of actions goes through, the first one included. *)
Fixpoint trajectory (xs : list Action) (w : World) : list World :=
  match xs with
  | [] => [w]
  | x :: rest => w :: trajectory rest (act x w)
  end.

(** [startCountdown] is called on the instance at [a] only while it is idle. *)
Fixpoint starts_when_idle (a : addr) (xs : list Action) (w : World) : Prop :=
  match xs with
  | [] => True
  | x :: rest =>
      (x = ActStart a → Idle a w) ∧ starts_when_idle a rest (act x w)
  end.

Global Instance starts_when_idle_dec a xs : ∀ w, Decision (starts_when_idle a xs w).
Proof. induction xs as [|x xs IH]; intros w; simpl; apply _. Defined.

(** Every active interval runs the tick of an instance of the store. *)
Definition owners_allocated (w : World) : Prop :=
  map_Forall (λ _ a, is_Some (heap w !! a)) (intervals (host w)).

Global Instance owners_allocated_dec w : Decision (owners_allocated w).
Proof. unfold owners_allocated. apply _. Defined.

(** What [n] ticks leave behind while none of them reaches zero. *)
Record ticked (a : addr) (this : Timer.t) (n : nat) (w w' : World) : Prop := {
  ticked_heap :
    heap w' = <[a := Timer.set_timeRemaining (Timer.timeRemaining this - Z.of_nat n) this]> (heap w);
  ticked_intervals : intervals (host w') = intervals (host w);
  ticked_next : next_interval (host w') = next_interval (host w);
  ticked_elements : elementsById (host w') = elementsById (host w);
  ticked_calls : calls (trace (host w')) = calls (trace (host w));
  ticked_cleared : cleared (trace (host w')) = cleared (trace (host w));
  ticked_display :
    n ≠ 0%nat →
    displayed (getElement (Timer.component this)) (host w') =
      Some ("Time: " +:+ pretty (Timer.timeRemaining this - Z.of_nat n))
}.

(** What the tick that reaches zero leaves behind, [n] ticks before it
    included. *)
Record finished (a : addr) (id : positive) (this : Timer.t) (w w' : World) : Prop := {
  finished_heap : heap w' = <[a := Timer.set_timeRemaining 0 this]> (heap w);
  finished_intervals : intervals (host w') = delete id (intervals (host w));
  finished_calls :
    calls (trace (host w')) =
      calls (trace (host w)) ++ fired (Timer.countdownTimerEndCallback this);
  finished_cleared : cleared (trace (host w')) = cleared (trace (host w)) ++ [id];
  finished_display :
    displayed (getElement (Timer.component this)) (host w') = Some "Time: 0"
}.

(** Every active tick of the instance at [a] is the one its [intervalId]
    names. *)
Definition tracked (a : addr) (w : World) : Prop :=
  set_Forall (λ id, field Timer.intervalId a w = Some (Some id))
             (active_ticks a w).

Global Instance tracked_dec a w : Decision (tracked a w).
Proof. unfold tracked. apply _. Defined.

(** The sum of a list of deltas. *)
Definition sum (ds : list Z) : Z := foldr Z.add 0 ds.

(** ** Interval ids across instances *)

(** The ids of the host are handed out in increasing order, so an id a Timer
    has stored is below the next one, and when it is still active it runs
    the tick of that Timer. *)
Record ids_coherent (w : World) : Prop := {
  active_below : ∀ id b,
    intervals (host w) !! id = Some b → (id < next_interval (host w))%positive;
  stored_below : ∀ b this id,
    heap w !! b = Some this → Timer.intervalId this = Some id →
    (id < next_interval (host w))%positive;
  stored_owner : ∀ b this id c,
    heap w !! b = Some this → Timer.intervalId this = Some id →
    intervals (host w) !! id = Some c → c = b
}.

(** An active tick of the instance at [a] that its [intervalId] no longer
    names. *)
Definition orphaned (a : addr) (id : positive) (w : World) : Prop :=
  intervals (host w) !! id = Some a ∧
  field Timer.intervalId a w ≠ Some (Some id).

Global Instance orphaned_dec a id w : Decision (orphaned a id w).
Proof. unfold orphaned. apply _. Defined.

(** A method body that keeps [intervalId] and the next id, and at most
    cancels the interval [intervalId] names. *)
Definition cancels_only (body : Timer.t → Host → Timer.t * Host) : Prop :=
  ∀ this h,
    Timer.intervalId (body this h).1 = Timer.intervalId this ∧
    next_interval (body this h).2 = next_interval h ∧
    (intervals (body this h).2 = intervals h ∨
     ∃ i, Timer.intervalId this = Some i ∧
          intervals (body this h).2 = delete i (intervals h)).

(** The action is a method call or an assignment on the instance at [a], or
    a tick of one of its intervals. *)
Definition targets (x : Action) (a : addr) (w : World) : Prop :=
  match x with
  | ActNew _ _ => False
  | ActStart b | ActReset b | ActAssign b _ => b = a
  | ActFire id => intervals (host w) !! id = Some a
  end.

Global Instance targets_dec x a w : Decision (targets x a w).
Proof. destruct x; simpl; apply _. Defined.

(** No Timer is built on element [el] by the action. *)
Definition builds_elsewhere (el : Element) (w : World) (x : Action) : Prop :=
  match x with
  | ActNew idValue _ => getElementById idValue (host w) ≠ Some el
  | _ => True
  end.

Global Instance builds_elsewhere_dec el w x : Decision (builds_elsewhere el w x).
Proof. destruct x; simpl; apply _. Defined.

(** The element of the instance at [a] is bound by no other instance. *)
Definition private_element (a : addr) (w : World) : Prop :=
  ∀ b ta tb, heap w !! a = Some ta → heap w !! b = Some tb → b ≠ a →
    getElement (Timer.component tb) ≠ getElement (Timer.component ta).

(** The display of the instance at [a] shows its remaining time. *)
Definition synced (a : addr) (w : World) : Prop :=
  ∃ this, heap w !! a = Some this ∧
    displayed (getElement (Timer.component this)) (host w) =
      Some ("Time: " +:+ pretty (Timer.timeRemaining this)).

(** What every method body of a Timer respects: the bound element and the
    initial time stay, the remaining time stays at or below the initial time,
    no other element is written, and a display that showed the remaining
    time still shows it. *)
Record method_facts (body : Timer.t → Host → Timer.t * Host) : Prop := {
  mf_component : ∀ this h,
    Timer.component (body this h).1 = Timer.component this;
  mf_initialTime : ∀ this h,
    Timer.initialTime (body this h).1 = Timer.initialTime this;
  mf_bound : ∀ this h,
    Timer.timeRemaining this ≤ Timer.initialTime this →
    Timer.timeRemaining (body this h).1 ≤ Timer.initialTime this;
  mf_elements : ∀ this h, elementsById (body this h).2 = elementsById h;
  mf_frame : ∀ this h el,
    el ≠ getElement (Timer.component this) →
    displayed el (body this h).2 = displayed el h;
  mf_sync : ∀ this h,
    displayed (getElement (Timer.component this)) h =
      Some ("Time: " +:+ pretty (Timer.timeRemaining this)) →
    displayed (getElement (Timer.component this)) (body this h).2 =
      Some ("Time: " +:+ pretty (Timer.timeRemaining (body this h).1))
}.

(** Every active tick runs for an instance of the store whose [intervalId]
    is defined. *)
Definition ticks_have_ids (w : World) : Prop :=
  map_Forall (λ _ a, ∃ i, field Timer.intervalId a w = Some (Some i))
             (intervals (host w)).

(** ** A sample page: a scoreboard element and a timer element *)

Definition page : Host :=
  mkHost (<["timer" := 1%nat]> (<["scoreboard" := 0%nat]> ∅)) ∅ ∅ 1%positive [].

Definition world0 : World := mkWorld ∅ page.

(** A timer of duration 3 on the sample page, with a callback, started. *)
Definition world_started : World :=
  run [ActNew "timer" 3; ActAssign 0%nat (JFunction "gameOver"); ActStart 0%nat]
      world0.

(** * Construction *)

Section Construction.

Lemma displayed_setText c v h : displayed (getElement c) (setText c v h) = Some v.
Proof. unfold displayed, setText; simpl. apply lookup_insert_eq. Qed.

Lemma GameComponent_new_found idValue el h :
  getElementById idValue h = Some el →
  GameComponent_new idValue h = (Normal (mkGameComponent el), h).
Proof. intros H. unfold GameComponent_new. now rewrite H. Qed.

Lemma GameComponent_new_missing idValue h :
  getElementById idValue h = None →
  GameComponent_new idValue h = (Throw (HtmlElementNotFound idValue), h).
Proof. intros H. unfold GameComponent_new. now rewrite H. Qed.

Lemma Scoreboard_new_found idValue init el h :
  getElementById idValue h = Some el →
  Scoreboard.new idValue init h =
    (Normal (Scoreboard.mk (mkGameComponent el) (default 0 init) (default 0 init)),
     Scoreboard.updateDisplay
       (Scoreboard.mk (mkGameComponent el) (default 0 init) (default 0 init)) h).
Proof.
  intros H. unfold Scoreboard.new, js_bind, TextComponent_new.
  now rewrite (GameComponent_new_found _ _ _ H).
Qed.

Lemma Timer_new_found idValue n el w :
  getElementById idValue (host w) = Some el →
  Timer_new idValue n w =
    (Normal (fresh (dom (heap w))),
     mkWorld (<[fresh (dom (heap w)) := Timer.mk (mkGameComponent el) n n None JNull]> (heap w))
             (Timer.updateDisplay (Timer.mk (mkGameComponent el) n n None JNull) (host w))).
Proof.
  intros H. unfold Timer_new, js_bind, in_host, TextComponent_new.
  now rewrite (GameComponent_new_found _ _ _ H).
Qed.

Lemma Timer_new_missing idValue n w :
  getElementById idValue (host w) = None →
  Timer_new idValue n w = (Throw (HtmlElementNotFound idValue), w).
Proof.
  intros H. unfold Timer_new, js_bind, in_host, TextComponent_new.
  rewrite (GameComponent_new_missing _ _ H). now destruct w.
Qed.

End Construction.

(** C5. Constructing any component with an identifier that resolves to no
    element throws the HtmlElementNotFound error, whose message carries the
    identifier, and leaves the page and the object store as they were: no
    text is set and no object is created.  With an identifier bound to an
    element every constructor returns normally. *)
Theorem construction_outcome (idValue : string) (init : option Z) (n : Z) (w : World) :
  match getElementById idValue (host w) with
  | None =>
      let e := HtmlElementNotFound idValue in
      err_name e = "HtmlElementNotFound" ∧
      err_message e =
        "No element exists with id=" +:+ dquote +:+ idValue +:+ dquote +:+ "." ∧
      GameComponent_new idValue (host w) = (Throw e, host w) ∧
      TextComponent_new idValue (host w) = (Throw e, host w) ∧
      Scoreboard.new idValue init (host w) = (Throw e, host w) ∧
      Timer_new idValue n w = (Throw e, w)
  | Some el =>
      GameComponent_new idValue (host w) = (Normal (mkGameComponent el), host w) ∧
      TextComponent_new idValue (host w) = (Normal (mkGameComponent el), host w) ∧
      (∃ this h', Scoreboard.new idValue init (host w) = (Normal this, h') ∧
                  getElement (Scoreboard.component this) = el) ∧
      (∃ a w', Timer_new idValue n w = (Normal a, w') ∧
               heap w !! a = None ∧
               getElement <$> field Timer.component a w' = Some el)
  end.
Proof.
  destruct (getElementById idValue (host w)) as [el|] eqn:Hel.
  - split_and!.
    + now apply GameComponent_new_found.
    + now apply GameComponent_new_found.
    + eexists _, _. split; [apply (Scoreboard_new_found _ _ _ _ Hel) | done].
    + eexists _, _. split; [apply (Timer_new_found _ _ _ _ Hel) |]. split.
      * apply not_elem_of_dom, is_fresh.
      * unfold field; simpl. now rewrite lookup_insert_eq.
  - split_and!; try done.
    + now apply GameComponent_new_missing.
    + now apply GameComponent_new_missing.
    + unfold Scoreboard.new, js_bind, TextComponent_new.
      now rewrite GameComponent_new_missing.
    + now apply Timer_new_missing.
Qed.

(** C8. For an identifier bound to an element, construction renders the
    initial state at once: a Scoreboard built without an initial value shows
    "Score: 0" (and one built with [v] shows "Score: v"), and a Timer built
    with duration [n] shows "Time: n". *)
Theorem construction_renders (idValue : string) (el : Element) (n : Z) (w : World) :
  getElementById idValue (host w) = Some el →
  (∃ this h', Scoreboard.new idValue None (host w) = (Normal this, h') ∧
              Scoreboard.display this h' = Some "Score: 0" ∧
              displayed el h' = Some "Score: 0") ∧
  (∀ v, ∃ this h', Scoreboard.new idValue (Some v) (host w) = (Normal this, h') ∧
              displayed el h' = Some ("Score: " +:+ pretty v)) ∧
  (∃ a w', Timer_new idValue n w = (Normal a, w') ∧
           display a w' = Some ("Time: " +:+ pretty n) ∧
           displayed el (host w') = Some ("Time: " +:+ pretty n)).
Proof.
  intros Hel. split_and!.
  - eexists _, _. split; [apply (Scoreboard_new_found _ _ _ _ Hel) |].
    split; apply (displayed_setText (mkGameComponent el)).
  - intros v. eexists _, _. split; [apply (Scoreboard_new_found _ _ _ _ Hel) |].
    apply (displayed_setText (mkGameComponent el)).
  - eexists _, _. split; [apply (Timer_new_found _ _ _ _ Hel) |].
    split.
    + unfold display; simpl. rewrite lookup_insert_eq; simpl.
      apply (displayed_setText (mkGameComponent el)).
    + apply (displayed_setText (mkGameComponent el)).
Qed.

Lemma construction_renders_witness :
  ∃ a w', Timer_new "timer" 30 world0 = (Normal a, w') ∧
          display a w' = Some "Time: 30".
Proof.
  destruct (construction_renders "timer" 1%nat 30 world0) as (_ & _ & a & w' & H1 & H2 & _).
  - reflexivity.
  - exists a, w'. split; [exact H1 | exact H2].
Defined.

(** * Scoreboard *)

Section ScoreboardFacts.

Import Scoreboard.

Lemma updateDisplay_in_sync this h : in_sync this (updateDisplay this h).
Proof. apply displayed_setText. Qed.

Lemma step_in_sync c this h : in_sync (step c this h).1 (step c this h).2.
Proof. destruct c; apply updateDisplay_in_sync. Qed.

Lemma step_initialValue c this h :
  initialValue (step c this h).1 = initialValue this.
Proof. now destruct c. Qed.

Lemma run_cons c cs this h :
  run (c :: cs) this h = run cs (step c this h).1 (step c this h).2.
Proof. simpl. now destruct (step c this h). Qed.

Lemma run_initialValue cs : ∀ this h,
  initialValue (run cs this h).1 = initialValue this.
Proof.
  induction cs as [|c cs IH]; intros this h; [done|].
  rewrite run_cons, IH. apply step_initialValue.
Qed.

Lemma run_in_sync cs : ∀ this h,
  in_sync this h → in_sync (run cs this h).1 (run cs this h).2.
Proof.
  induction cs as [|c cs IH]; intros this h Hs; [done|].
  rewrite run_cons. apply IH, step_in_sync.
Qed.

Lemma updates_cons v vs this h :
  updates (v :: vs) this h = updates vs (update v this h).1 (update v this h).2.
Proof. reflexivity. Qed.

Lemma round53_safe z : safe z → round53 z = z.
Proof.
  unfold safe, round53. intros Hz. apply Z.ltb_lt in Hz. now rewrite Hz.
Qed.

Lemma js_add_safe x y : safe (x + y) → js_add x y = x + y.
Proof. apply round53_safe. Qed.

Lemma updates_score vs : ∀ this h,
  running_safe (score this) vs →
  score (updates vs this h).1 = score this + sum vs.
Proof.
  induction vs as [|v vs IH]; intros this h Hsafe.
  - simpl. lia.
  - destruct Hsafe as [Hv Hrest]. rewrite updates_cons, IH; simpl.
    + rewrite (js_add_safe _ _ Hv). unfold sum. simpl. lia.
    + now rewrite (js_add_safe _ _ Hv).
Qed.

Lemma updates_in_sync vs : ∀ this h,
  in_sync this h → in_sync (updates vs this h).1 (updates vs this h).2.
Proof.
  induction vs as [|v vs IH]; intros this h Hs; [done|].
  rewrite updates_cons. apply IH, updateDisplay_in_sync.
Qed.

Lemma updates_component vs : ∀ this h,
  component (updates vs this h).1 = component this.
Proof.
  induction vs as [|v vs IH]; intros this h; [done|].
  now rewrite updates_cons, IH.
Qed.

Lemma sum_Permutation (ds ds' : list Z) : ds ≡ₚ ds' → sum ds = sum ds'.
Proof.
  unfold sum. induction 1 as [|x l l' _ IH|x y l|l l' l'' _ IH1 _ IH2]; simpl.
  - done.
  - now rewrite IH.
  - lia.
  - congruence.
Qed.

Lemma new_inv idValue init this h0 h :
  new idValue init h0 = (Normal this, h) →
  initialValue this = default 0 init ∧ score this = default 0 init ∧
  h = updateDisplay this h0.
Proof.
  unfold new, js_bind, TextComponent_new, GameComponent_new.
  destruct (getElementById idValue h0); simpl; [|done].
  intros [= <- <-]. done.
Qed.

End ScoreboardFacts.

(** C6, as the code has it.  A Scoreboard built with initial score
    [initial] (0 when omitted) that receives the deltas [d1 .. dn] in any
    order in which every running total is a safe integer ends with the
    score [initial + sum di], and shows it.  [update] is a total function of
    the delta: every integer, positive or negative, is accepted. *)
Theorem update_order_independent
    (idValue : string) (init : option Z) (this : Scoreboard.t) (h0 h : Host)
    (ds ds' : list Z) :
  Scoreboard.new idValue init h0 = (Normal this, h) →
  ds ≡ₚ ds' →
  running_safe (default 0 init) ds' →
  let initial := default 0 init in
  let '(this', h') := Scoreboard.updates ds' this h in
  Scoreboard.score this' = initial + sum ds ∧
  Scoreboard.display this' h' = Some ("Score: " +:+ pretty (initial + sum ds)).
Proof.
  intros Hnew Hperm Hsafe initial.
  destruct (new_inv _ _ _ _ _ Hnew) as (Hi & Hs & ->).
  rewrite <- Hs in Hsafe.
  pose proof (updates_score ds' this (Scoreboard.updateDisplay this h0) Hsafe) as Hsc.
  pose proof (updates_in_sync ds' this _ (updateDisplay_in_sync this h0)) as Hd.
  destruct (Scoreboard.updates ds' this (Scoreboard.updateDisplay this h0))
    as [this' h']; simpl in *.
  rewrite <- (sum_Permutation _ _ Hperm) in Hsc.
  assert (Scoreboard.score this' = initial + sum ds) as E by (subst initial; lia).
  split; [exact E|]. unfold Scoreboard.in_sync in Hd. now rewrite E in Hd.
Qed.

Lemma update_order_independent_witness :
  let this := Scoreboard.mk (mkGameComponent 0%nat) 10 10 in
  let '(this', h') :=
    Scoreboard.updates [-4; 7; 5] this (Scoreboard.updateDisplay this page) in
  Scoreboard.score this' = 10 + sum [5; -4; 7] ∧
  Scoreboard.display this' h' = Some ("Score: " +:+ pretty (10 + sum [5; -4; 7])).
Proof.
  apply (update_order_independent "scoreboard" (Some 10) _ page _
           [5; -4; 7] [-4; 7; 5]).
  - apply (Scoreboard_new_found "scoreboard" (Some 10) 0%nat page). reflexivity.
  - apply Permutation_cons_append.
  - simpl. unfold safe. lia.
Defined.

(** The sum of the deltas does depend on the order once a running total
    leaves the safe integers, which is how C6 fails as stated: from 0, the
    deltas 2^53 - 1, 2, 1, 1, -4 in this order end at ...988, in the order
    -4, 2, 1, 1, 2^53 - 1 they end at ...991, which is the sum. *)
Lemma update_order_matters :
  let this := Scoreboard.mk (mkGameComponent 0%nat) 0 0 in
  let h := Scoreboard.updateDisplay this page in
  let ds := [9007199254740991; 2; 1; 1; -4] in
  let ds' := [-4; 2; 1; 1; 9007199254740991] in
  ds ≡ₚ ds' ∧
  Scoreboard.new "scoreboard" None page = (Normal this, h) ∧
  0 + sum ds = 9007199254740991 ∧
  Scoreboard.score (Scoreboard.updates ds this h).1 = 9007199254740988 ∧
  Scoreboard.score (Scoreboard.updates ds' this h).1 = 9007199254740991 ∧
  Scoreboard.display (Scoreboard.updates ds this h).1 (Scoreboard.updates ds this h).2
    = Some "Score: 9007199254740988".
Proof.
  split; [|split_and!; vm_compute; reflexivity].
  transitivity ([2; 1; 1; -4] ++ [9007199254740991]).
  - apply (Permutation_app_comm [9007199254740991] [2; 1; 1; -4]).
  - apply (Permutation_app_tail [9007199254740991] (l := [2; 1; 1; -4])
             (l' := [-4; 2; 1; 1])).
    apply (Permutation_app_comm [2; 1; 1] [-4]).
Qed.

(** C7. After any sequence of [update] (and [reset]) calls on a Scoreboard,
    [reset] puts the score back to the initial value captured at
    construction and the display back to "Score: " + initial.  The display
    equals "Score: " + score right after construction and right after every
    [update] and [reset]. *)
Theorem reset_restores_initial
    (idValue : string) (init : option Z) (this : Scoreboard.t) (h0 h : Host)
    (cs : list Scoreboard.call) :
  Scoreboard.new idValue init h0 = (Normal this, h) →
  let initial := default 0 init in
  let '(this1, h1) := Scoreboard.run cs this h in
  let '(this2, h2) := Scoreboard.reset this1 h1 in
  Scoreboard.in_sync this h ∧ Scoreboard.in_sync this1 h1 ∧
  (∀ c, Scoreboard.in_sync (Scoreboard.step c this1 h1).1 (Scoreboard.step c this1 h1).2) ∧
  Scoreboard.score this2 = initial ∧
  Scoreboard.display this2 h2 = Some ("Score: " +:+ pretty initial).
Proof.
  intros Hnew initial.
  destruct (new_inv _ _ _ _ _ Hnew) as (Hi & Hs & ->).
  pose proof (run_initialValue cs this (Scoreboard.updateDisplay this h0)) as Hiv.
  pose proof (run_in_sync cs this _ (updateDisplay_in_sync this h0)) as Hd.
  destruct (Scoreboard.run cs this (Scoreboard.updateDisplay this h0))
    as [this1 h1]; simpl in *.
  split_and!.
  - apply updateDisplay_in_sync.
  - exact Hd.
  - intros c. apply step_in_sync.
  - subst initial. congruence.
  - unfold Scoreboard.display, Scoreboard.updateDisplay; simpl.
    rewrite displayed_setText. subst initial. now rewrite Hiv, Hi.
Qed.

Lemma reset_restores_initial_witness :
  let this := Scoreboard.mk (mkGameComponent 0%nat) 0 0 in
  let '(this1, h1) :=
    Scoreboard.run [Scoreboard.CallUpdate 3; Scoreboard.CallUpdate (-1)]
                   this (Scoreboard.updateDisplay this page) in
  let '(this2, h2) := Scoreboard.reset this1 h1 in
  Scoreboard.score this1 = 2 ∧
  Scoreboard.score this2 = 0 ∧
  Scoreboard.display this2 h2 = Some ("Score: " +:+ pretty 0).
Proof.
  pose proof (reset_restores_initial "scoreboard" None _ page _
    [Scoreboard.CallUpdate 3; Scoreboard.CallUpdate (-1)]
    (Scoreboard_new_found "scoreboard" None 0%nat page eq_refl)) as H.
  simpl in *. destruct H as (_ & _ & _ & H4 & H5).
  split; [reflexivity|]. split; [exact H4 | exact H5].
Defined.

(** * Timer *)

Section TimerFacts.

Import Timer.

(** ** Which ticks are active *)

Lemma elem_of_active_ticks a id w :
  id ∈ active_ticks a w ↔ intervals (host w) !! id = Some a.
Proof.
  unfold active_ticks. rewrite elem_of_dom. split.
  - intros [b Hb]. apply map_lookup_filter_Some in Hb as [Hb Ha].
    simpl in Ha. now subst b.
  - intros Hid. exists a. now apply map_lookup_filter_Some.
Qed.

Lemma active_ticks_same a w w' :
  intervals (host w') = intervals (host w) → active_ticks a w' = active_ticks a w.
Proof. unfold active_ticks. now intros ->. Qed.

Lemma active_ticks_delete a id w w' :
  intervals (host w') = delete id (intervals (host w)) →
  active_ticks a w' = active_ticks a w ∖ {[id]}.
Proof.
  intros E. apply set_eq. intros x.
  rewrite elem_of_difference, !elem_of_active_ticks, E, elem_of_singleton.
  rewrite lookup_delete_Some. intuition congruence.
Qed.

Lemma active_ticks_insert a id w w' :
  intervals (host w') = <[id := a]> (intervals (host w)) →
  active_ticks a w' = {[id]} ∪ active_ticks a w.
Proof.
  intros E. apply set_eq. intros x.
  rewrite elem_of_union, !elem_of_active_ticks, E, elem_of_singleton.
  rewrite lookup_insert_Some. destruct (decide (id = x)); intuition congruence.
Qed.

Lemma active_ticks_insert_other a b id w w' :
  a ≠ b →
  intervals (host w') = <[id := b]> (intervals (host w)) →
  active_ticks a w' = active_ticks a w ∖ {[id]}.
Proof.
  intros Hab E. apply set_eq. intros x.
  rewrite elem_of_difference, !elem_of_active_ticks, E, elem_of_singleton.
  rewrite lookup_insert_Some. intuition congruence.
Qed.

Lemma Running_active a id w : Running a id w → intervals (host w) !! id = Some a.
Proof. intros [_ E]. apply elem_of_active_ticks. rewrite E. set_solver. Qed.

Lemma Idle_not_owner a id w : Idle a w → intervals (host w) !! id ≠ Some a.
Proof.
  intros E Hid. apply elem_of_active_ticks in Hid. rewrite E in Hid. set_solver.
Qed.

(** ** One method call, one tick *)

Lemma on_instance_eq a body w this :
  heap w !! a = Some this →
  on_instance a body w =
    mkWorld (<[a := (body this (host w)).1]> (heap w)) (body this (host w)).2.
Proof. intros H. unfold on_instance. rewrite H. now destruct (body this (host w)). Qed.

Lemma on_instance_dangling a body w :
  heap w !! a = None → on_instance a body w = w.
Proof. intros H. unfold on_instance. now rewrite H. Qed.

Lemma fire_eq id a this w :
  intervals (host w) !! id = Some a →
  heap w !! a = Some this →
  fire id w = mkWorld (<[a := (tick this (host w)).1]> (heap w))
                      (tick this (host w)).2.
Proof. intros Hid Ha. unfold fire. rewrite Hid. now apply on_instance_eq. Qed.

Lemma fire_inactive id w : intervals (host w) !! id = None → fire id w = w.
Proof. intros H. unfold fire. now rewrite H. Qed.

Lemma tick_continue this h :
  timeRemaining this ≠ 1 →
  tick this h =
    (set_timeRemaining (timeRemaining this - 1) this,
     updateDisplay (set_timeRemaining (timeRemaining this - 1) this) h).
Proof. intros H. unfold tick; simpl. case_decide; [lia | done]. Qed.

Lemma tick_finish this h :
  timeRemaining this = 1 →
  tick this h =
    (set_timeRemaining 0 this,
     invoke (countdownTimerEndCallback this)
       (clearInterval_var (intervalId this)
          (updateDisplay (set_timeRemaining 0 this) h))).
Proof.
  intros H. unfold tick; simpl. rewrite H; simpl.
  now destruct (countdownTimerEndCallback this).
Qed.

Lemma trace_invoke v h : trace (invoke v h) = trace h ++ (EvCall <$> fired v).
Proof. destruct v; simpl; by rewrite ?app_nil_r. Qed.

Lemma intervals_invoke v h : intervals (invoke v h) = intervals h.
Proof. now destruct v. Qed.

Lemma innerText_invoke v h : innerText (invoke v h) = innerText h.
Proof. now destruct v. Qed.

Lemma calls_app tr tr' : calls (tr ++ tr') = calls tr ++ calls tr'.
Proof. unfold calls. apply omap_app. Qed.

Lemma cleared_app tr tr' : cleared (tr ++ tr') = cleared tr ++ cleared tr'.
Proof. unfold cleared. apply omap_app. Qed.

Lemma calls_EvCall fs : calls (EvCall <$> fs) = fs.
Proof. induction fs as [|f fs IH]; [done|]. cbn. f_equal. exact IH. Qed.

Lemma cleared_EvCall fs : cleared (EvCall <$> fs) = [].
Proof. induction fs as [|f fs IH]; [done|]. cbn. exact IH. Qed.

(** ** Ticks of a started timer *)

Lemma fire_continue a id this w :
  heap w !! a = Some this →
  intervals (host w) !! id = Some a →
  timeRemaining this ≠ 1 →
  fire id w =
    mkWorld (<[a := set_timeRemaining (timeRemaining this - 1) this]> (heap w))
            (updateDisplay (set_timeRemaining (timeRemaining this - 1) this) (host w)).
Proof.
  intros Ha Hid Hne. rewrite (fire_eq _ _ _ _ Hid Ha).
  now rewrite (tick_continue _ _ Hne).
Qed.

Lemma fire_finish a id this w :
  heap w !! a = Some this →
  intervals (host w) !! id = Some a →
  timeRemaining this = 1 →
  fire id w =
    mkWorld (<[a := set_timeRemaining 0 this]> (heap w))
            (invoke (countdownTimerEndCallback this)
               (clearInterval_var (intervalId this)
                  (updateDisplay (set_timeRemaining 0 this) (host w)))).
Proof.
  intros Ha Hid H1. rewrite (fire_eq _ _ _ _ Hid Ha).
  now rewrite (tick_finish _ _ H1).
Qed.

Lemma fires_S n id w : fires (S n) id w = fire id (fires n id w).
Proof. reflexivity. Qed.

Lemma fires_add n m id w : fires (n + m) id w = fires m id (fires n id w).
Proof.
  induction m as [|m IH].
  - now rewrite Nat.add_0_r.
  - now rewrite Nat.add_succ_r, !fires_S, IH.
Qed.

Lemma fires_inactive n id w : intervals (host w) !! id = None → fires n id w = w.
Proof.
  intros H. induction n as [|n IH]; [done|].
  rewrite fires_S, IH. now apply fire_inactive.
Qed.

Lemma set_timeRemaining_same this v :
  timeRemaining this = v → set_timeRemaining v this = this.
Proof. intros <-. now destruct this. Qed.

Lemma fires_continue a id this w n :
  heap w !! a = Some this →
  intervals (host w) !! id = Some a →
  timeRemaining this ≤ 0 ∨ Z.of_nat n < timeRemaining this →
  ticked a this n w (fires n id w).
Proof.
  intros Ha Hid. induction n as [|n IH]; intros Hn.
  - split; try done.
    simpl. rewrite set_timeRemaining_same by lia. symmetry. now apply insert_id.
  - destruct IH as [Hh Hi Hx He Hc Hcl _]; [lia|].
    rewrite fires_S.
    set (this' := set_timeRemaining (timeRemaining this - Z.of_nat n) this) in *.
    assert (heap (fires n id w) !! a = Some this') as Ha'
      by (rewrite Hh; apply lookup_insert_eq).
    assert (intervals (host (fires n id w)) !! id = Some a) as Hid'
      by now rewrite Hi.
    rewrite (fire_continue _ _ _ _ Ha' Hid') by (subst this'; simpl; lia).
    assert (set_timeRemaining (timeRemaining this' - 1) this'
            = set_timeRemaining (timeRemaining this - Z.of_nat (S n)) this) as ->.
    { subst this'. unfold set_timeRemaining; simpl. f_equal. lia. }
    split; simpl; try done.
    + rewrite Hh. apply insert_insert_eq.
    + rewrite calls_app, Hc. simpl. apply app_nil_r.
    + rewrite cleared_app, Hcl. simpl. apply app_nil_r.
    + intros _. apply (displayed_setText (component this)).
Qed.

Lemma fires_finish a id this w n :
  heap w !! a = Some this →
  intervals (host w) !! id = Some a →
  intervalId this = Some id →
  timeRemaining this = Z.of_nat (S n) →
  finished a id this w (fires (S n) id w).
Proof.
  intros Ha Hid Hint Hn.
  destruct (fires_continue a id this w n Ha Hid) as [Hh Hi Hx He Hc Hcl _]; [lia|].
  rewrite fires_S.
  set (this' := set_timeRemaining (timeRemaining this - Z.of_nat n) this) in *.
  assert (heap (fires n id w) !! a = Some this') as Ha'
    by (rewrite Hh; apply lookup_insert_eq).
  assert (intervals (host (fires n id w)) !! id = Some a) as Hid'
    by now rewrite Hi.
  rewrite (fire_finish _ _ _ _ Ha' Hid') by (subst this'; simpl; lia).
  assert (set_timeRemaining 0 this' = set_timeRemaining 0 this) as ->
    by reflexivity.
  assert (intervalId this' = Some id) as -> by exact Hint.
  assert (countdownTimerEndCallback this' = countdownTimerEndCallback this) as ->
    by reflexivity.
  split; simpl.
  - rewrite Hh. apply insert_insert_eq.
  - now rewrite intervals_invoke; simpl; rewrite Hi.
  - rewrite trace_invoke; simpl. rewrite !calls_app, calls_EvCall, Hc. cbn.
    now rewrite !app_nil_r.
  - rewrite trace_invoke; simpl. rewrite !cleared_app, cleared_EvCall, Hcl. cbn.
    now rewrite !app_nil_r.
  - unfold displayed. rewrite innerText_invoke; simpl. apply lookup_insert_eq.
Qed.

Lemma finished_Idle a id this w w' :
  Running a id w → finished a id this w w' → Idle a w'.
Proof.
  intros [_ E] F. unfold Idle.
  rewrite (active_ticks_delete a id w w' (finished_intervals _ _ _ _ _ F)), E.
  apply difference_diag_L.
Qed.

Lemma finished_no_more a id this w w' k :
  finished a id this w w' → fires k id w' = w'.
Proof.
  intros F. apply fires_inactive.
  rewrite (finished_intervals _ _ _ _ _ F). apply lookup_delete_eq.
Qed.

Lemma ticked_Running a id this n w w' :
  Running a id w → heap w !! a = Some this → ticked a this n w w' → Running a id w'.
Proof.
  intros [Hf E] Ha T. split.
  - unfold field in *. rewrite (ticked_heap _ _ _ _ _ T), lookup_insert_eq.
    now rewrite Ha in Hf.
  - now rewrite (active_ticks_same a w w' (ticked_intervals _ _ _ _ _ T)).
Qed.

(** ** startCountdown, reset, and the callback field *)

Lemma display_insert a this hp h :
  display a (mkWorld (<[a := this]> hp) h) = displayed (getElement (component this)) h.
Proof. unfold display; simpl. now rewrite lookup_insert_eq. Qed.

Lemma field_insert {A} (f : Timer.t → A) a this hp h :
  field f a (mkWorld (<[a := this]> hp) h) = Some (f this).
Proof. unfold field; simpl. now rewrite lookup_insert_eq. Qed.

Lemma startCountdown_eq a this w :
  heap w !! a = Some this →
  Timer_startCountdown a w =
    mkWorld (<[a := set_intervalId (next_interval (host w)) this]> (heap w))
            (setInterval a (host w)).2.
Proof. intros Ha. unfold Timer_startCountdown. now rewrite (on_instance_eq _ _ _ _ Ha). Qed.

Lemma reset_eq a this w :
  heap w !! a = Some this →
  Timer_reset a w =
    mkWorld (<[a := set_timeRemaining (initialTime this) this]> (heap w))
            (updateDisplay (set_timeRemaining (initialTime this) this)
               (clearInterval_var (intervalId this) (host w))).
Proof.
  intros Ha. unfold Timer_reset. rewrite (on_instance_eq _ _ _ _ Ha).
  unfold reset_body. now destruct (intervalId this).
Qed.

Lemma assign_callback_eq a v this w :
  heap w !! a = Some this →
  Timer_assign_callback a v w =
    mkWorld (<[a := set_callback v this]> (heap w)) (host w).
Proof. intros Ha. unfold Timer_assign_callback. now rewrite (on_instance_eq _ _ _ _ Ha). Qed.

Lemma startCountdown_Running a this w :
  heap w !! a = Some this → Idle a w →
  Running a (next_interval (host w)) (Timer_startCountdown a w).
Proof.
  intros Ha HI. rewrite (startCountdown_eq _ _ _ Ha). split.
  - now rewrite field_insert.
  - rewrite (active_ticks_insert a (next_interval (host w)) w) by done.
    rewrite HI. apply (right_id_L ∅ (∪)).
Qed.

(** A Timer built in a world whose intervals all belong to existing
    instances starts idle. *)
Lemma fresh_Idle w w' :
  owners_allocated w →
  intervals (host w') = intervals (host w) →
  Idle (fresh (dom (heap w))) w'.
Proof.
  intros Hok E. unfold Idle. apply set_eq. intros id.
  rewrite elem_of_active_ticks, E. split; [|set_solver].
  intros Hid. apply Hok in Hid. apply elem_of_dom in Hid.
  now apply is_fresh in Hid.
Qed.

(** Construction, an assignment to the callback field, and
    [startCountdown]: the timer is running its first countdown. *)
Lemma constructed_started idValue el n v w0 :
  owners_allocated w0 →
  getElementById idValue (host w0) = Some el →
  let a := fresh (dom (heap w0)) in
  let id := next_interval (host w0) in
  let w2 := Timer_startCountdown a
              (Timer_assign_callback a v (Timer_new idValue n w0).2) in
  (Timer_new idValue n w0).1 = Normal a ∧
  heap w2 !! a = Some (Timer.mk (mkGameComponent el) n n (Some id) v) ∧
  Running a id w2 ∧
  calls (trace (host w2)) = calls (trace (host w0)) ∧
  cleared (trace (host w2)) = cleared (trace (host w0)).
Proof.
  intros Hok Hel a id w2. subst w2.
  rewrite (Timer_new_found _ n _ _ Hel); simpl. fold a.
  set (t0 := Timer.mk (mkGameComponent el) n n None JNull).
  set (w1 := mkWorld (<[a := t0]> (heap w0)) (updateDisplay t0 (host w0))).
  assert (heap w1 !! a = Some t0) as H1 by apply lookup_insert_eq.
  rewrite (assign_callback_eq a v t0 w1 H1).
  set (w1' := mkWorld _ _).
  assert (heap w1' !! a = Some (set_callback v t0)) as H1' by apply lookup_insert_eq.
  assert (Idle a w1') as HI by now apply fresh_Idle.
  split; [done|]. split; [|split; [|split]].
  - rewrite (startCountdown_eq _ _ _ H1'). simpl. now rewrite lookup_insert_eq.
  - apply (startCountdown_Running a _ w1' H1' HI).
  - rewrite (startCountdown_eq _ _ _ H1'). simpl. rewrite !calls_app. cbn.
    now rewrite !app_nil_r.
  - rewrite (startCountdown_eq _ _ _ H1'). simpl. rewrite !cleared_app. cbn.
    now rewrite !app_nil_r.
Qed.

Lemma display_ticked a this n w w' :
  ticked a this n w w' → n ≠ 0%nat →
  display a w' = Some ("Time: " +:+ pretty (timeRemaining this - Z.of_nat n)).
Proof.
  intros T Hn. unfold display. rewrite (ticked_heap _ _ _ _ _ T), lookup_insert_eq.
  simpl. now apply (ticked_display _ _ _ _ _ T).
Qed.

Lemma display_finished a id this w w' :
  finished a id this w w' → display a w' = Some "Time: 0".
Proof.
  intros F. unfold display. rewrite (finished_heap _ _ _ _ _ F), lookup_insert_eq.
  simpl. apply (finished_display _ _ _ _ _ F).
Qed.

Lemma Running_intervalId a id this w :
  heap w !! a = Some this → Running a id w → intervalId this = Some id.
Proof.
  intros Ha [Hf _]. unfold field in Hf. rewrite Ha in Hf. simpl in Hf. congruence.
Qed.

End TimerFacts.

(** ** Worlds the actions can reach

    [owners_allocated] holds of every world without intervals and is kept by
    every action. *)

Section ReachableWorlds.

Import Timer.

Lemma owners_allocated_no_intervals w :
  intervals (host w) = ∅ → owners_allocated w.
Proof. unfold owners_allocated. intros ->. apply map_Forall_empty. Qed.

Lemma owners_allocated_on_instance b body w :
  (∀ this h id a, intervals (body this h).2 !! id = Some a →
                  intervals h !! id = Some a ∨ a = b) →
  owners_allocated w → owners_allocated (on_instance b body w).
Proof.
  intros Hbody Hok.
  destruct (heap w !! b) as [this|] eqn:Hb;
    [|now rewrite on_instance_dangling].
  rewrite (on_instance_eq _ _ _ _ Hb). intros id a Hid. simpl in *.
  destruct (decide (a = b)) as [->|Hab].
  - rewrite lookup_insert_eq. eauto.
  - rewrite lookup_insert_ne by done.
    apply Hbody in Hid as [Hid|?]; [|done]. exact (Hok id a Hid).
Qed.

Lemma owners_allocated_act x w : owners_allocated w → owners_allocated (act x w).
Proof.
  intros Hok. destruct x as [idValue n|b|b|b v|id]; simpl.
  - destruct (getElementById idValue (host w)) as [el|] eqn:Hel.
    + rewrite (Timer_new_found _ n _ _ Hel). simpl. intros id a Hid. simpl in *.
      destruct (decide (fresh (dom (heap w)) = a)) as [->|Hne].
      * rewrite lookup_insert_eq. eauto.
      * rewrite lookup_insert_ne by done. exact (Hok id a Hid).
    + now rewrite (Timer_new_missing _ n _ Hel).
  - apply owners_allocated_on_instance; [|done].
    intros this h id a. unfold startCountdown_body. simpl.
    rewrite lookup_insert_Some. intuition.
  - apply owners_allocated_on_instance; [|done].
    intros this h id a. unfold reset_body. simpl.
    destruct (intervalId this); simpl; [|tauto].
    rewrite lookup_delete_Some. tauto.
  - apply owners_allocated_on_instance; [|done]. intros; now left.
  - unfold fire. destruct (intervals (host w) !! id) as [b|]; [|done].
    apply owners_allocated_on_instance; [|done].
    intros this h x a. unfold tick. simpl. case_decide; [|tauto].
    assert (intervals (clearInterval_var (intervalId this)
              (updateDisplay (set_timeRemaining (timeRemaining this - 1) this) h))
              !! x = Some a → intervals h !! x = Some a) as Hc.
    { destruct (intervalId this); simpl; [|done].
      rewrite lookup_delete_Some. tauto. }
    destruct (countdownTimerEndCallback this); simpl; tauto.
Qed.

Lemma owners_allocated_run xs : ∀ w,
  owners_allocated w → owners_allocated (run xs w).
Proof.
  induction xs as [|x xs IH]; intros w Hok; [done|].
  apply (IH (act x w)). now apply owners_allocated_act.
Qed.

End ReachableWorlds.

(** C1. A tick of a running timer (its one active interval is the one
    [startCountdown] stored in [intervalId]) takes one off the remaining time
    and then sets the display to "Time: " + remaining.  The tick that
    reaches 0 then cancels the interval and, after that, calls the callback held by
    [countdownTimerEndCallback] when there is one, once; the timer is idle and
    no further tick happens.  A timer built with duration 3 and started shows
    "Time: 2" after one tick and "Time: 0" after three, when the callback has
    been called exactly once. *)
Theorem countdown_ticks :
  (∀ (a : addr) (id : positive) (this : Timer.t) (w : World),
     heap w !! a = Some this →
     Running a id w →
     let el := getElement (Timer.component this) in
     let remaining := Timer.timeRemaining this - 1 in
     let w' := fire id w in
     field Timer.timeRemaining a w' = Some remaining ∧
     display a w' = Some ("Time: " +:+ pretty remaining) ∧
     (remaining ≠ 0 →
        trace (host w') =
          trace (host w) ++ [EvSetText el ("Time: " +:+ pretty remaining)] ∧
        Running a id w') ∧
     (remaining = 0 →
        trace (host w') =
          trace (host w)
            ++ [EvSetText el ("Time: " +:+ pretty remaining); EvClearInterval id]
            ++ (EvCall <$> fired (Timer.countdownTimerEndCallback this)) ∧
        Idle a w' ∧
        ∀ k, fires k id w' = w')) ∧
  (∀ (idValue : string) (el : Element) (v : Callback) (w0 : World),
     owners_allocated w0 →
     getElementById idValue (host w0) = Some el →
     let a := fresh (dom (heap w0)) in
     let id := next_interval (host w0) in
     let w2 := Timer_startCountdown a
                 (Timer_assign_callback a v (Timer_new idValue 3 w0).2) in
     display a (fires 1 id w2) = Some "Time: 2" ∧
     display a (fires 3 id w2) = Some "Time: 0" ∧
     calls (trace (host (fires 3 id w2))) = calls (trace (host w0)) ++ fired v ∧
     Idle a (fires 3 id w2) ∧
     ∀ k, fires (3 + k) id w2 = fires 3 id w2).
Proof.
  split.
  - intros a id this w Ha HR el remaining w'.
    pose proof (Running_active _ _ _ HR) as Hid.
    pose proof (Running_intervalId _ _ _ _ Ha HR) as Hint.
    destruct (decide (Timer.timeRemaining this = 1)) as [H1|H1].
    + assert (remaining = 0) as H0 by (subst remaining; lia).
      subst w'. rewrite (fire_finish _ _ _ _ Ha Hid H1).
      rewrite field_insert, display_insert, Hint, H0. simpl.
      split; [done|]. split.
      { unfold displayed. rewrite innerText_invoke. simpl. apply lookup_insert_eq. }
      split; [done|]. intros _.
      assert (intervals (Timer.invoke (Timer.countdownTimerEndCallback this)
                (clearInterval id
                   (Timer.updateDisplay (Timer.set_timeRemaining 0 this) (host w))))
              = delete id (intervals (host w))) as Hdel
        by now rewrite intervals_invoke.
      split; [|split].
      * rewrite trace_invoke. simpl. now rewrite <- !app_assoc.
      * unfold Idle. rewrite (active_ticks_delete a id w) by exact Hdel.
        destruct HR as [_ ->]. apply difference_diag_L.
      * intros k. apply fires_inactive. simpl. rewrite Hdel. apply lookup_delete_eq.
    + assert (remaining ≠ 0) as H0 by (subst remaining; lia).
      subst w'. rewrite (fire_continue _ _ _ _ Ha Hid H1).
      rewrite field_insert, display_insert. simpl.
      split; [done|]. split; [apply (displayed_setText (Timer.component this))|].
      split; [|done]. intros _. split; [done|].
      split.
      * rewrite field_insert. simpl. now rewrite Hint.
      * destruct HR as [_ <-]. now apply active_ticks_same.
  - intros idValue el v w0 Hok Hel a id w2.
    destruct (constructed_started idValue el 3 v w0 Hok Hel)
      as (_ & Ha & HR & Hc & _).
    fold a id w2 in Ha, HR, Hc.
    pose proof (Running_active _ _ _ HR) as Hid.
    pose proof (fires_continue a id _ w2 1 Ha Hid) as T1.
    pose proof (fires_finish a id _ w2 2 Ha Hid eq_refl eq_refl) as F.
    split; [|split; [|split; [|split]]].
    + apply (display_ticked _ _ _ _ _ (T1 ltac:(simpl; lia))). lia.
    + apply (display_finished _ _ _ _ _ F).
    + rewrite (finished_calls _ _ _ _ _ F), Hc. done.
    + apply (finished_Idle _ _ _ _ _ HR F).
    + intros k. rewrite fires_add. apply (finished_no_more _ _ _ _ _ k F).
Qed.

Lemma countdown_ticks_witness :
  field Timer.timeRemaining 0%nat (fire 1%positive world_started) = Some 2 ∧
  Running 0%nat 1%positive (fire 1%positive world_started) ∧
  display 0%nat (fire 1%positive world_started) = Some "Time: 2" ∧
  display 0%nat (fires 3 1%positive world_started) = Some "Time: 0" ∧
  calls (trace (host (fires 3 1%positive world_started))) = ["gameOver"] ∧
  fires 5 1%positive world_started = fires 3 1%positive world_started.
Proof.
  destruct countdown_ticks as [G H].
  destruct (G 0%nat 1%positive
              (Timer.mk (mkGameComponent 1%nat) 3 3 (Some 1%positive)
                        (JFunction "gameOver"))
              world_started) as (Hf & _ & Hgo & _).
  - reflexivity.
  - split; reflexivity.
  - destruct Hgo as [_ HR]; [simpl; lia|].
    destruct (H "timer" 1%nat (JFunction "gameOver") world0)
      as (H1 & H3 & Hc & _ & Hk).
    + unfold owners_allocated. simpl. apply map_Forall_empty.
    + reflexivity.
    + split; [exact Hf|]. split; [exact HR|]. split; [exact H1|].
      split; [exact H3|]. split; [exact Hc|]. exact (Hk 2%nat).
Defined.

(** C3. A timer built with duration 0 and started: the first tick brings the
    remaining time to -1 and the display to "Time: -1"; after any number of
    ticks the remaining time is negative, so the test against 0 has never
    succeeded, the interval is still active, [clearInterval] has not been
    called and no callback has been called. *)
Theorem zero_duration_never_completes
    (idValue : string) (el : Element) (v : Callback) (w0 : World) (k : nat) :
  owners_allocated w0 →
  getElementById idValue (host w0) = Some el →
  let a := fresh (dom (heap w0)) in
  let id := next_interval (host w0) in
  let w2 := Timer_startCountdown a
              (Timer_assign_callback a v (Timer_new idValue 0 w0).2) in
  let w' := fires (S k) id w2 in
  field Timer.timeRemaining a (fire id w2) = Some (-1) ∧
  display a (fire id w2) = Some "Time: -1" ∧
  field Timer.timeRemaining a w' = Some (- Z.of_nat (S k)) ∧
  display a w' = Some ("Time: " +:+ pretty (- Z.of_nat (S k))) ∧
  Running a id w' ∧
  intervals (host w') !! id = Some a ∧
  cleared (trace (host w')) = cleared (trace (host w0)) ∧
  calls (trace (host w')) = calls (trace (host w0)).
Proof.
  intros Hok Hel a id w2 w'.
  destruct (constructed_started idValue el 0 v w0 Hok Hel)
    as (_ & Ha & HR & Hc & Hcl).
  fold a id w2 in Ha, HR, Hc, Hcl.
  pose proof (Running_active _ _ _ HR) as Hid.
  assert (∀ n, ticked a (Timer.mk (mkGameComponent el) 0 0 (Some id) v) n w2
                 (fires n id w2)) as T.
  { intros n. apply (fires_continue a id _ w2 n Ha Hid). left. simpl. lia. }
  pose proof (T 1%nat) as T1. pose proof (T (S k)) as Tk. fold w' in Tk.
  change (fires 1 id w2) with (fire id w2) in T1.
  split_and!.
  - unfold field. now rewrite (ticked_heap _ _ _ _ _ T1), lookup_insert_eq.
  - now rewrite (display_ticked _ _ _ _ _ T1).
  - unfold field. rewrite (ticked_heap _ _ _ _ _ Tk), lookup_insert_eq.
    simpl. f_equal.
  - now rewrite (display_ticked _ _ _ _ _ Tk).
  - apply (ticked_Running _ _ _ _ _ _ HR Ha Tk).
  - now rewrite (ticked_intervals _ _ _ _ _ Tk).
  - now rewrite (ticked_cleared _ _ _ _ _ Tk).
  - now rewrite (ticked_calls _ _ _ _ _ Tk).
Qed.

Lemma zero_duration_never_completes_witness :
  let w2 := run [ActNew "timer" 0; ActAssign 0%nat (JFunction "gameOver");
                 ActStart 0%nat] world0 in
  display 0%nat (fire 1%positive w2) = Some "Time: -1" ∧
  display 0%nat (fires 4 1%positive w2) = Some "Time: -4" ∧
  intervals (host (fires 4 1%positive w2)) !! 1%positive = Some 0%nat ∧
  calls (trace (host (fires 4 1%positive w2))) = [].
Proof.
  destruct (zero_duration_never_completes "timer" 1%nat (JFunction "gameOver")
              world0 3) as (_ & H1 & _ & Hk & _ & Hi & _ & Hc).
  - unfold owners_allocated. simpl. apply map_Forall_empty.
  - reflexivity.
  - split; [exact H1|]. split; [exact Hk|]. split; [exact Hi | exact Hc].
Defined.

(** C9. The callback of the zero tick is whatever the public field
    [countdownTimerEndCallback] holds when that tick runs.  The field is null
    after construction; a value assigned in the middle of a countdown is the
    one the zero tick uses, whatever the field held before; with null or
    undefined in the field nothing is called. *)
Theorem callback_read_at_zero_tick :
  (∀ (idValue : string) (el : Element) (n : Z) (w0 : World),
     getElementById idValue (host w0) = Some el →
     field Timer.countdownTimerEndCallback (fresh (dom (heap w0)))
           (Timer_new idValue n w0).2 = Some JNull) ∧
  (∀ (a : addr) (id : positive) (this : Timer.t) (w : World),
     heap w !! a = Some this →
     Running a id w →
     Timer.timeRemaining this = 1 →
     calls (trace (host (fire id w))) =
       calls (trace (host w)) ++ fired (Timer.countdownTimerEndCallback this)) ∧
  (∀ (a : addr) (id : positive) (this : Timer.t) (w : World) (v : Callback)
     (m r : nat),
     heap w !! a = Some this →
     Running a id w →
     Timer.timeRemaining this = Z.of_nat (m + S r) →
     let w1 := Timer_assign_callback a v (fires m id w) in
     field Timer.countdownTimerEndCallback a w1 = Some v ∧
     Running a id w1 ∧
     calls (trace (host (fires (S r) id w1))) = calls (trace (host w)) ++ fired v) ∧
  fired JNull = [] ∧
  fired JUndefined = [] ∧
  (∀ f, fired (JFunction f) = [f]).
Proof.
  split_and!; try done.
  - intros idValue el n w0 Hel.
    rewrite (Timer_new_found _ n _ _ Hel). simpl. apply field_insert.
  - intros a id this w Ha HR H1.
    rewrite (fire_finish _ _ _ _ Ha (Running_active _ _ _ HR) H1). simpl.
    rewrite trace_invoke, calls_app, calls_EvCall.
    rewrite (Running_intervalId _ _ _ _ Ha HR). simpl.
    rewrite !calls_app. cbn. now rewrite !app_nil_r.
  - intros a id this w v m r Ha HR Hn w1.
    pose proof (Running_active _ _ _ HR) as Hid.
    pose proof (Running_intervalId _ _ _ _ Ha HR) as Hint.
    destruct (fires_continue a id this w m Ha Hid) as [Hh Hi _ _ Hc _ _]; [lia|].
    set (this' := Timer.set_timeRemaining (Timer.timeRemaining this - Z.of_nat m) this) in *.
    assert (heap (fires m id w) !! a = Some this') as Ha'
      by (rewrite Hh; apply lookup_insert_eq).
    subst w1. rewrite (assign_callback_eq a v this' _ Ha').
    set (w1 := mkWorld _ _).
    assert (heap w1 !! a = Some (Timer.set_callback v this')) as Ha1
      by apply lookup_insert_eq.
    assert (intervals (host w1) !! id = Some a) as Hid1 by (simpl; now rewrite Hi).
    split; [apply field_insert|]. split.
    + split; [unfold field; rewrite Ha1; simpl; now rewrite Hint|].
      destruct HR as [_ <-]. now apply active_ticks_same.
    + rewrite (finished_calls _ _ _ _ _
                 (fires_finish a id _ w1 r Ha1 Hid1 Hint ltac:(simpl; lia))).
      simpl. now rewrite Hc.
Qed.

Lemma callback_read_at_zero_tick_witness :
  calls (trace (host
    (fires 2 1%positive
       (Timer_assign_callback 0%nat (JFunction "playAgain")
          (fires 1 1%positive world_started))))) = ["playAgain"].
Proof.
  destruct callback_read_at_zero_tick as (_ & _ & H & _).
  destruct (H 0%nat 1%positive
              (Timer.mk (mkGameComponent 1%nat) 3 3 (Some 1%positive)
                        (JFunction "gameOver"))
              world_started (JFunction "playAgain") 1%nat 1%nat)
    as (_ & _ & Hc).
  - reflexivity.
  - split; reflexivity.
  - reflexivity.
  - exact Hc.
Defined.

(** * Reset *)

Section ResetFacts.

Import Timer.

Lemma on_instance_heap_other a b body w :
  a ≠ b → heap (on_instance b body w) !! a = heap w !! a.
Proof.
  intros Hab. unfold on_instance. destruct (heap w !! b) as [this|]; [|done].
  destruct (body this (host w)). simpl. now apply lookup_insert_ne.
Qed.

Lemma fire_heap_Idle a id w : Idle a w → heap (fire id w) !! a = heap w !! a.
Proof.
  intros HI. unfold fire.
  destruct (intervals (host w) !! id) as [b|] eqn:Hid; [|done].
  apply on_instance_heap_other. intros ->. now apply (Idle_not_owner _ _ _ HI) in Hid.
Qed.

Lemma intervals_clearInterval_var oid h :
  intervals (clearInterval_var oid h) =
    match oid with Some id => delete id (intervals h) | None => intervals h end.
Proof. now destruct oid. Qed.

Lemma calls_clearInterval_var oid h :
  calls (trace (clearInterval_var oid h)) = calls (trace h).
Proof.
  destruct oid; [|done]. simpl. rewrite calls_app. cbn. apply app_nil_r.
Qed.

Lemma reset_Idle a this w :
  heap w !! a = Some this →
  Idle a w ∨ (∃ id, Running a id w) →
  Idle a (Timer_reset a w).
Proof.
  intros Ha Hst. rewrite (reset_eq _ _ _ Ha). unfold Idle.
  destruct Hst as [HI | [id HR]].
  - destruct (intervalId this) as [i|] eqn:Hi.
    + rewrite (active_ticks_delete a i w) by done. rewrite HI.
      apply subseteq_empty_difference_L, empty_subseteq.
    + now rewrite (active_ticks_same a w).
  - rewrite (Running_intervalId _ _ _ _ Ha HR).
    rewrite (active_ticks_delete a id w) by done.
    destruct HR as [_ ->]. apply difference_diag_L.
Qed.

Lemma reset_calls a w :
  calls (trace (host (Timer_reset a w))) = calls (trace (host w)).
Proof.
  destruct (heap w !! a) as [this|] eqn:Ha.
  - rewrite (reset_eq _ _ _ Ha). simpl. rewrite calls_app, calls_clearInterval_var.
    cbn. apply app_nil_r.
  - unfold Timer_reset. now rewrite on_instance_dangling.
Qed.

Lemma startCountdown_calls a w :
  calls (trace (host (Timer_startCountdown a w))) = calls (trace (host w)).
Proof.
  destruct (heap w !! a) as [this|] eqn:Ha.
  - rewrite (startCountdown_eq _ _ _ Ha). simpl. rewrite calls_app. cbn.
    apply app_nil_r.
  - unfold Timer_startCountdown. now rewrite on_instance_dangling.
Qed.

End ResetFacts.

(** C4. [reset] on an idle or running timer leaves it idle, with the
    remaining time back at the initial duration and shown on the display by
    a [setText] call, and keeps the callback field.  [Timer_reset] is a total
    function of the world, so it completes from either state; on a timer
    that was never started the guard fails and nothing is cancelled.  After
    a reset in the middle of a countdown the interval no longer fires and no
    tick changes the timer; [startCountdown] then starts from the initial
    duration and, when that is positive, counts down to "Time: 0" and
    calls the callback. *)
Theorem reset_cancels_and_restores (a : addr) (this : Timer.t) (w : World) :
  heap w !! a = Some this →
  Idle a w ∨ (∃ id, Running a id w) →
  let el := getElement (Timer.component this) in
  let text := "Time: " +:+ pretty (Timer.initialTime this) in
  let w' := Timer_reset a w in
  Idle a w' ∧
  field Timer.timeRemaining a w' = Some (Timer.initialTime this) ∧
  display a w' = Some text ∧
  last (trace (host w')) = Some (EvSetText el text) ∧
  field Timer.countdownTimerEndCallback a w' =
    Some (Timer.countdownTimerEndCallback this) ∧
  field Timer.initialTime a w' = Some (Timer.initialTime this) ∧
  (Timer.intervalId this = None →
     trace (host w') = trace (host w) ++ [EvSetText el text]) ∧
  (∀ id, Running a id w →
     intervals (host w') !! id = None ∧ ∀ k, fires k id w' = w') ∧
  (∀ id, heap (fire id w') !! a = heap w' !! a) ∧
  let id' := next_interval (host w') in
  let w'' := Timer_startCountdown a w' in
  Running a id' w'' ∧
  field Timer.timeRemaining a w'' = Some (Timer.initialTime this) ∧
  ∀ n : nat,
    Timer.initialTime this = Z.of_nat (S n) →
    (∀ k : nat, (0 < k ≤ n)%nat →
       display a (fires k id' w'') =
         Some ("Time: " +:+ pretty (Timer.initialTime this - Z.of_nat k))) ∧
    display a (fires (S n) id' w'') = Some "Time: 0" ∧
    Idle a (fires (S n) id' w'') ∧
    calls (trace (host (fires (S n) id' w''))) =
      calls (trace (host w)) ++ fired (Timer.countdownTimerEndCallback this).
Proof.
  intros Ha Hst el text w'.
  pose proof (reset_Idle _ _ _ Ha Hst) as HI. fold w' in HI.
  pose proof (reset_calls a w) as Hcalls. fold w' in Hcalls.
  pose proof (reset_eq _ _ _ Ha) as Ew. fold w' in Ew.
  set (this' := Timer.set_timeRemaining (Timer.initialTime this) this) in *.
  assert (heap w' !! a = Some this') as Ha'
    by (rewrite Ew; apply lookup_insert_eq).
  split; [exact HI|].
  split; [unfold field; now rewrite Ha'|].
  split.
  { rewrite Ew, display_insert. apply (displayed_setText (Timer.component this)). }
  split; [rewrite Ew; simpl; apply last_snoc|].
  split; [unfold field; now rewrite Ha'|].
  split; [unfold field; now rewrite Ha'|].
  split; [intros Hnone; rewrite Ew; simpl; now rewrite Hnone|].
  split.
  { intros id HR.
    assert (intervals (host w') !! id = None) as Hnone.
    { rewrite Ew. simpl. rewrite (Running_intervalId _ _ _ _ Ha HR). simpl.
      apply lookup_delete_eq. }
    split; [exact Hnone|]. intros k. now apply fires_inactive. }
  split; [intros id; now apply fire_heap_Idle|].
  intros id' w''.
  pose proof (startCountdown_Running _ _ _ Ha' HI) as HR. fold id' w'' in HR.
  pose proof (startCountdown_eq _ _ _ Ha') as Ew''. fold id' w'' in Ew''.
  set (this'' := Timer.set_intervalId id' this') in *.
  assert (heap w'' !! a = Some this'') as Ha''
    by (rewrite Ew''; apply lookup_insert_eq).
  pose proof (Running_active _ _ _ HR) as Hid.
  split; [exact HR|]. split; [unfold field; now rewrite Ha''|].
  intros n Hn.
  assert (Timer.timeRemaining this'' = Z.of_nat (S n)) as Hn' by exact Hn.
  pose proof (fires_finish a id' this'' w'' n Ha'' Hid eq_refl Hn') as F.
  split; [|split; [|split]].
  - intros k Hk.
    rewrite (display_ticked a this'' k w'' _
               (fires_continue a id' this'' w'' k Ha'' Hid ltac:(right; lia)))
      by lia.
    done.
  - apply (display_finished _ _ _ _ _ F).
  - apply (finished_Idle _ _ _ _ _ HR F).
  - rewrite (finished_calls _ _ _ _ _ F). subst w''.
    now rewrite startCountdown_calls, Hcalls.
Qed.

Lemma reset_cancels_and_restores_witness :
  let w := fires 1 1%positive world_started in
  let w' := Timer_reset 0%nat w in
  display 0%nat w = Some "Time: 2" ∧
  display 0%nat w' = Some "Time: 3" ∧
  fires 2 1%positive w' = w' ∧
  display 0%nat (fires 3 2%positive (Timer_startCountdown 0%nat w')) = Some "Time: 0" ∧
  calls (trace (host (fires 3 2%positive (Timer_startCountdown 0%nat w')))) = ["gameOver"].
Proof.
  intros w w'.
  destruct (reset_cancels_and_restores 0%nat
              (Timer.mk (mkGameComponent 1%nat) 3 2 (Some 1%positive)
                        (JFunction "gameOver")) w)
    as (_ & _ & Hd & _ & _ & _ & _ & Hp & _ & _ & _ & Hfull).
  - reflexivity.
  - right. exists 1%positive. split; reflexivity.
  - destruct (Hp 1%positive) as [_ Hk].
    { split; reflexivity. }
    destruct (Hfull 2%nat eq_refl) as (_ & H0 & _ & Hc).
    split; [reflexivity|]. split; [exact Hd|]. split; [exact (Hk 2%nat)|].
    split; [exact H0 | exact Hc].
Defined.

(** C10. When the zero tick has cancelled its own interval, [intervalId]
    still holds the id.  A [reset] after that passes the guard, calls
    [clearInterval] once more on the id that is no longer active, which
    changes no interval, puts the remaining time back to the initial
    duration and sets the display.  [Timer_reset] is total: the call
    completes. *)
Theorem reset_after_completion
    (a : addr) (id : positive) (this : Timer.t) (w : World) :
  heap w !! a = Some this →
  Running a id w →
  Timer.timeRemaining this = 1 →
  let el := getElement (Timer.component this) in
  let text := "Time: " +:+ pretty (Timer.initialTime this) in
  let w1 := fire id w in
  let w2 := Timer_reset a w1 in
  Idle a w1 ∧
  intervals (host w1) !! id = None ∧
  field Timer.intervalId a w1 = Some (Some id) ∧
  Timer.truthy <$> field Timer.intervalId a w1 = Some true ∧
  trace (host w2) = trace (host w1) ++ [EvClearInterval id; EvSetText el text] ∧
  intervals (host w2) = intervals (host w1) ∧
  field Timer.timeRemaining a w2 = Some (Timer.initialTime this) ∧
  display a w2 = Some text.
Proof.
  intros Ha HR H1 el text w1 w2.
  pose proof (Running_active _ _ _ HR) as Hid.
  pose proof (Running_intervalId _ _ _ _ Ha HR) as Hint.
  pose proof (fire_finish _ _ _ _ Ha Hid H1) as E1. fold w1 in E1.
  rewrite Hint in E1. simpl in E1.
  set (this1 := Timer.set_timeRemaining 0 this) in *.
  assert (heap w1 !! a = Some this1) as Ha1 by (rewrite E1; apply lookup_insert_eq).
  assert (intervals (host w1) = delete id (intervals (host w))) as Hdel
    by (rewrite E1; simpl; now rewrite intervals_invoke).
  pose proof (reset_eq _ _ _ Ha1) as E2. fold w2 in E2.
  assert (Timer.intervalId this1 = Some id) as Hint1 by exact Hint.
  rewrite Hint1 in E2. simpl in E2.
  split_and!.
  - unfold Idle. rewrite (active_ticks_delete a id w w1 Hdel).
    destruct HR as [_ ->]. apply difference_diag_L.
  - rewrite Hdel. apply lookup_delete_eq.
  - unfold field. rewrite Ha1. simpl. now rewrite Hint.
  - unfold field. rewrite Ha1. simpl. now rewrite Hint.
  - rewrite E2. simpl. now rewrite <- app_assoc.
  - rewrite E2. simpl. apply delete_id. rewrite Hdel. apply lookup_delete_eq.
  - rewrite E2. now rewrite field_insert.
  - rewrite E2, display_insert. apply (displayed_setText (Timer.component this)).
Qed.

Lemma reset_after_completion_witness :
  let w1 := fires 3 1%positive world_started in
  let w2 := Timer_reset 0%nat w1 in
  field Timer.intervalId 0%nat w1 = Some (Some 1%positive) ∧
  intervals (host w1) !! 1%positive = None ∧
  cleared (trace (host w2)) = [1%positive; 1%positive] ∧
  display 0%nat w2 = Some "Time: 3".
Proof.
  intros w1 w2.
  destruct (reset_after_completion 0%nat 1%positive
              (Timer.mk (mkGameComponent 1%nat) 3 1 (Some 1%positive)
                        (JFunction "gameOver"))
              (fires 2 1%positive world_started))
    as (_ & Hn & Hi & _ & _ & _ & _ & Hd).
  - reflexivity.
  - split; reflexivity.
  - reflexivity.
  - split; [exact Hi|]. split; [exact Hn|]. split; [reflexivity | exact Hd].
Defined.

(** * How many ticks an instance can have *)

Section OneTick.

Import Timer.

Lemma Idle_tracked a w : Idle a w → tracked a w.
Proof. intros HI id Hid. rewrite HI in Hid. now apply not_elem_of_empty in Hid. Qed.

Lemma Running_tracked a id w : Running a id w → tracked a w.
Proof.
  intros [Hf E] x Hx. rewrite E in Hx.
  now apply elem_of_singleton in Hx as ->.
Qed.

Lemma tracked_at_most_one a w : tracked a w → at_most_one_tick a w.
Proof.
  intros HT. unfold at_most_one_tick.
  destruct (field intervalId a w) as [[id|]|] eqn:Hf.
  - assert (active_ticks a w ⊆ {[id]}) as Hsub.
    { intros x Hx. apply HT in Hx. apply elem_of_singleton. congruence. }
    apply subseteq_size in Hsub. now rewrite size_singleton in Hsub.
  - assert (active_ticks a w = ∅) as ->; [|rewrite size_empty; lia].
    apply set_eq. intros x. split; [|intros Hx; now apply not_elem_of_empty in Hx].
    intros Hx. apply HT in Hx. congruence.
  - assert (active_ticks a w = ∅) as ->; [|rewrite size_empty; lia].
    apply set_eq. intros x. split; [|intros Hx; now apply not_elem_of_empty in Hx].
    intros Hx. apply HT in Hx. congruence.
Qed.

(** A method body that leaves [intervalId] alone and starts no tick of the
    instance at [a] keeps its ticks tracked. *)
Lemma tracked_on_instance a b body w :
  (∀ this h, intervalId (body this h).1 = intervalId this) →
  (∀ this h id, intervals (body this h).2 !! id = Some a →
                intervals h !! id = Some a) →
  tracked a w → tracked a (on_instance b body w).
Proof.
  intros Hkeep Hshrink HT.
  destruct (heap w !! b) as [this|] eqn:Hb;
    [|now rewrite on_instance_dangling].
  rewrite (on_instance_eq _ _ _ _ Hb). intros id Hid.
  apply elem_of_active_ticks in Hid. simpl in Hid. apply Hshrink in Hid.
  apply elem_of_active_ticks, HT in Hid. unfold field in *. simpl.
  destruct (decide (a = b)) as [->|Hab].
  - rewrite lookup_insert_eq. simpl. rewrite Hb in Hid. simpl in Hid.
    now rewrite Hkeep.
  - now rewrite lookup_insert_ne.
Qed.

Lemma tracked_reset a b w : tracked a w → tracked a (Timer_reset b w).
Proof.
  apply tracked_on_instance; [done|].
  intros this h id. unfold reset_body. simpl.
  destruct (intervalId this) as [i|]; simpl; [|done].
  rewrite lookup_delete_Some. tauto.
Qed.

Lemma tracked_assign a b v w : tracked a w → tracked a (Timer_assign_callback b v w).
Proof. now apply tracked_on_instance. Qed.

Lemma tracked_fire a id w : tracked a w → tracked a (fire id w).
Proof.
  intros HT. unfold fire. destruct (intervals (host w) !! id) as [b|]; [|done].
  apply tracked_on_instance; [| |done].
  - intros this h. unfold tick. simpl. case_decide; [|done].
    now destruct (countdownTimerEndCallback this).
  - intros this h x. unfold tick. simpl. case_decide; [|done].
    assert (∀ h', intervals (clearInterval_var (intervalId this) h') !! x = Some a →
                  intervals h' !! x = Some a) as Hc.
    { intros h'. destruct (intervalId this); simpl; [|done].
      rewrite lookup_delete_Some. tauto. }
    destruct (countdownTimerEndCallback this); simpl; intros Hx;
      apply Hc in Hx; exact Hx.
Qed.

Lemma tracked_start_other a b w :
  a ≠ b → tracked a w → tracked a (Timer_startCountdown b w).
Proof.
  intros Hab HT.
  destruct (heap w !! b) as [this|] eqn:Hb;
    [|unfold Timer_startCountdown; now rewrite on_instance_dangling].
  rewrite (startCountdown_eq _ _ _ Hb). intros id Hid.
  apply elem_of_active_ticks in Hid. simpl in Hid.
  apply lookup_insert_Some in Hid as [[_ ?]|[_ Hid]]; [congruence|].
  apply elem_of_active_ticks, HT in Hid. unfold field in *. simpl.
  now rewrite lookup_insert_ne.
Qed.

Lemma tracked_start_idle a w :
  Idle a w → tracked a (Timer_startCountdown a w).
Proof.
  intros HI. destruct (heap w !! a) as [this|] eqn:Ha.
  - eapply Running_tracked, startCountdown_Running; eassumption.
  - unfold Timer_startCountdown. rewrite on_instance_dangling by done.
    now apply Idle_tracked.
Qed.

Lemma tracked_new a idValue n w :
  tracked a w → tracked a (Timer_new idValue n w).2.
Proof.
  intros HT. destruct (getElementById idValue (host w)) as [el|] eqn:Hel.
  - rewrite (Timer_new_found _ n _ _ Hel). simpl. intros id Hid.
    apply elem_of_active_ticks in Hid. simpl in Hid.
    apply elem_of_active_ticks, HT in Hid. unfold field in *. simpl.
    destruct (decide (a = fresh (dom (heap w)))) as [->|Hne].
    + assert (heap w !! fresh (dom (heap w)) = None) as Hnone
        by apply not_elem_of_dom, is_fresh.
      now rewrite Hnone in Hid.
    + now rewrite lookup_insert_ne.
  - now rewrite (Timer_new_missing _ n _ Hel).
Qed.

Lemma tracked_act a x w :
  (x = ActStart a → Idle a w) → tracked a w → tracked a (act x w).
Proof.
  intros Hstart HT. destruct x as [idValue n|b|b|b v|id]; simpl.
  - now apply tracked_new.
  - destruct (decide (a = b)) as [<-|Hab].
    + now apply tracked_start_idle, Hstart.
    + now apply tracked_start_other.
  - now apply tracked_reset.
  - now apply tracked_assign.
  - now apply tracked_fire.
Qed.

Lemma tracked_trajectory a xs : ∀ w,
  starts_when_idle a xs w → tracked a w →
  Forall (tracked a) (trajectory xs w).
Proof.
  induction xs as [|x xs IH]; intros w Hs HT; simpl.
  - now constructor.
  - destruct Hs as [Hx Hs]. constructor; [done|].
    apply IH; [done|]. now apply tracked_act.
Qed.

Lemma tracked_Idle_or_Running a w :
  tracked a w → Idle a w ∨ (∃ id, Running a id w).
Proof.
  intros HT. destruct (decide (active_ticks a w = ∅)) as [HE|HE]; [now left|].
  right. apply set_choose_L in HE as [id Hid]. exists id.
  split; [now apply HT|].
  apply set_eq. intros x. rewrite elem_of_singleton. split.
  - intros Hx. apply HT in Hx. apply HT in Hid. congruence.
  - now intros ->.
Qed.

(** Started only when idle, a timer is idle or running in every world it
    goes through: the two states are closed under the actions. *)
Lemma Idle_or_Running_trajectory a xs w :
  Idle a w ∨ (∃ id, Running a id w) →
  starts_when_idle a xs w →
  Forall (λ w', Idle a w' ∨ (∃ id, Running a id w')) (trajectory xs w).
Proof.
  intros Hst Hs.
  assert (tracked a w) as HT.
  { destruct Hst as [HI|[id HR]]; [now apply Idle_tracked | now apply (Running_tracked a id)]. }
  pose proof (tracked_trajectory a xs w Hs HT) as HF.
  induction HF as [|w' ws Hw _ IH]; constructor; [|exact IH].
  now apply tracked_Idle_or_Running.
Qed.

End OneTick.

(** C2, as the code has it.  Take an instance that is idle or running and a
    sequence of actions (constructions, [startCountdown], [reset],
    assignments to the callback field, on any instance, and ticks of any
    interval) in which [startCountdown] is called on this instance only
    while it is idle.  Then the instance has at most one active tick in every
    world the sequence goes through. *)
Theorem at_most_one_tick_when_started_idle
    (a : addr) (xs : list Action) (w : World) :
  Idle a w ∨ (∃ id, Running a id w) →
  starts_when_idle a xs w →
  Forall (at_most_one_tick a) (trajectory xs w).
Proof.
  intros Hst Hs.
  assert (tracked a w) as HT.
  { destruct Hst as [HI|[id HR]]; [now apply Idle_tracked | now apply (Running_tracked a id)]. }
  pose proof (tracked_trajectory a xs w Hs HT) as HF.
  induction HF as [|w' ws Hw _ IH]; constructor; [|exact IH].
  now apply tracked_at_most_one.
Qed.

Lemma at_most_one_tick_when_started_idle_witness :
  Forall (at_most_one_tick 0%nat)
    (trajectory [ActNew "timer" 3; ActStart 0%nat; ActFire 1%positive;
                 ActReset 0%nat; ActStart 0%nat; ActFire 2%positive;
                 ActFire 1%positive]
                world0).
Proof.
  apply at_most_one_tick_when_started_idle.
  - left. reflexivity.
  - simpl. split_and!; try done; intros _; reflexivity.
Defined.

(** A second [startCountdown] on a running timer registers a second
    interval next to the first: the instance then has two active ticks, which
    is how C2 fails as stated. *)
Lemma second_startCountdown_overlaps :
  let w := run [ActNew "timer" 3; ActStart 0%nat; ActStart 0%nat] world0 in
  active_ticks 0%nat w = {[1%positive; 2%positive]} ∧
  ¬ at_most_one_tick 0%nat w.
Proof.
  assert (active_ticks 0%nat
            (run [ActNew "timer" 3; ActStart 0%nat; ActStart 0%nat] world0)
          = {[1%positive; 2%positive]}) as E by (vm_compute; reflexivity).
  split; [exact E|].
  unfold at_most_one_tick. rewrite E. vm_compute. lia.
Qed.

(** * Sample runs on the sample page *)

Example missing_element_throws :
  GameComponent_new "lives" page =
    (Throw (mkError "HtmlElementNotFound"
              ("No element exists with id=" +:+ dquote +:+ "lives" +:+ dquote +:+ ".")),
     page).
Proof. reflexivity. Qed.

Example missing_element_no_timer :
  Timer_new "lives" 30 world0 = (Throw (HtmlElementNotFound "lives"), world0).
Proof. reflexivity. Qed.

Example scoreboard_default_shows_zero :
  Scoreboard.display (Scoreboard.mk (mkGameComponent 0%nat) 0 0)
    (Scoreboard.new "scoreboard" None page).2 = Some "Score: 0".
Proof. reflexivity. Qed.

Example scoreboard_negative_delta :
  let this := Scoreboard.mk (mkGameComponent 0%nat) 0 0 in
  let '(this', h') :=
    Scoreboard.updates [5; -8] this (Scoreboard.new "scoreboard" None page).2 in
  Scoreboard.display this' h' = Some "Score: -3".
Proof. reflexivity. Qed.

(** The host calls of a whole countdown from 3, in order. *)
Example countdown_trace :
  trace (host (fires 3 1%positive world_started)) =
    [EvSetText 1%nat "Time: 3"; EvSetInterval 1%positive 0%nat;
     EvSetText 1%nat "Time: 2"; EvSetText 1%nat "Time: 1";
     EvSetText 1%nat "Time: 0"; EvClearInterval 1%positive; EvCall "gameOver"].
Proof. vm_compute. reflexivity. Qed.

(** With two overlapping intervals the tick that reaches zero cancels the
    interval [intervalId] names, the second one; the first keeps ticking
    below zero. *)
Example overlapping_ticks_run_on :
  let w := run [ActNew "timer" 2; ActStart 0%nat; ActStart 0%nat;
                ActFire 1%positive; ActFire 2%positive; ActFire 1%positive]
               world0 in
  display 0%nat w = Some "Time: -1" ∧
  active_ticks 0%nat w = {[1%positive]} ∧
  cleared (trace (host w)) = [2%positive].
Proof. vm_compute. done. Qed.

(** * Further properties of the components *)

(** ** The page and the scoreboard *)

Section PageFacts.

Import Scoreboard.

Lemma displayed_setText_other c v el h :
  el ≠ getElement c → displayed el (setText c v h) = displayed el h.
Proof. intros Hne. unfold displayed, setText; simpl. now apply lookup_insert_ne. Qed.

Lemma step_component c this h : component (step c this h).1 = component this.
Proof. now destruct c. Qed.

Lemma step_host c this h :
  (step c this h).2 = updateDisplay (step c this h).1 h.
Proof. now destruct c. Qed.

Lemma run_app cs cs' : ∀ this h,
  run (cs ++ cs') this h = run cs' (run cs this h).1 (run cs this h).2.
Proof.
  induction cs as [|c cs IH]; intros this h.
  - simpl. now destruct (run cs' this h).
  - rewrite <- app_comm_cons, !run_cons. apply IH.
Qed.

Lemma run_updates ds this h : run (CallUpdate <$> ds) this h = updates ds this h.
Proof.
  revert this h. induction ds as [|d ds IH]; intros this h; [done|].
  rewrite fmap_cons, run_cons, updates_cons. apply IH.
Qed.

Lemma score_text_inj (x y : Z) :
  "Score: " +:+ pretty x = "Score: " +:+ pretty y → x = y.
Proof.
  intros H. apply (inj (String.append "Score: ")) in H. now apply (inj pretty).
Qed.

End PageFacts.

(** [setText] replaces the text of the bound element and of no other
    element, whatever was shown before, and touches neither the intervals nor
    the element index; of two calls in a row only the later text stays. *)
Theorem setText_overwrites
    (c : GameComponent) (v1 v2 : string) (el : Element) (h : Host) :
  displayed el (setText c v2 h) =
    (if decide (el = getElement c) then Some v2 else displayed el h) ∧
  innerText (setText c v2 (setText c v1 h)) = innerText (setText c v2 h) ∧
  intervals (setText c v2 h) = intervals h ∧
  next_interval (setText c v2 h) = next_interval h ∧
  elementsById (setText c v2 h) = elementsById h ∧
  trace (setText c v2 h) = trace h ++ [EvSetText (getElement c) v2].
Proof.
  split_and!; try done.
  - case_decide as Hel.
    + subst el. apply displayed_setText.
    + now apply displayed_setText_other.
  - simpl. apply insert_insert_eq.
Qed.

(** X1. A successful construction sets the text of the bound element once
    and does nothing else to the page: the other elements, the intervals and
    the next interval id are as before.  The new Timer is stored at a fresh
    address next to the existing instances, with the remaining time at the
    initial time, [intervalId] undefined and no tick of its own. *)
Theorem construction_frame
    (idValue : string) (el : Element) (init : option Z) (n : Z) (w : World) :
  getElementById idValue (host w) = Some el →
  let h' := (Scoreboard.new idValue init (host w)).2 in
  let a := fresh (dom (heap w)) in
  let w' := (Timer_new idValue n w).2 in
  (trace h' = trace (host w) ++ [EvSetText el ("Score: " +:+ pretty (default 0 init))] ∧
   intervals h' = intervals (host w) ∧
   next_interval h' = next_interval (host w) ∧
   ∀ el', el' ≠ el → displayed el' h' = displayed el' (host w)) ∧
  (trace (host w') = trace (host w) ++ [EvSetText el ("Time: " +:+ pretty n)] ∧
   intervals (host w') = intervals (host w) ∧
   next_interval (host w') = next_interval (host w) ∧
   ∀ el', el' ≠ el → displayed el' (host w') = displayed el' (host w)) ∧
  heap w !! a = None ∧
  heap w' !! a = Some (Timer.mk (mkGameComponent el) n n None JNull) ∧
  (∀ b, b ≠ a → heap w' !! b = heap w !! b) ∧
  (owners_allocated w → Idle a w').
Proof.
  intros Hel h' a w'. subst h' w'.
  rewrite (Scoreboard_new_found _ init _ _ Hel), (Timer_new_found _ n _ _ Hel).
  simpl. fold a. split_and!; try done.
  - intros el' Hne. now apply (displayed_setText_other (mkGameComponent el)).
  - intros el' Hne. now apply (displayed_setText_other (mkGameComponent el)).
  - apply not_elem_of_dom, is_fresh.
  - apply lookup_insert_eq.
  - intros b Hb. now apply lookup_insert_ne.
  - intros Hok. now apply fresh_Idle.
Qed.

Lemma construction_frame_witness :
  let w' := (Timer_new "timer" 30 world0).2 in
  displayed 0%nat (host w') = displayed 0%nat (host world0) ∧
  heap w' !! 0%nat = Some (Timer.mk (mkGameComponent 1%nat) 30 30 None JNull) ∧
  Idle 0%nat w'.
Proof.
  destruct (construction_frame "timer" 1%nat None 30 world0 eq_refl)
    as (_ & (_ & _ & _ & Hd) & _ & Hh & _ & HI).
  split; [apply Hd; discriminate|]. split; [exact Hh|].
  apply HI. unfold owners_allocated. simpl. apply map_Forall_empty.
Defined.

(** X2. Whatever calls a Scoreboard receives, each call sets the text of its
    own element exactly once and that is all it does to the page: no
    interval is started or cancelled, no callback runs, no other element
    changes, and the bound element and the initial value stay the same. *)
Theorem scoreboard_only_renders
    (cs : list Scoreboard.call) (this : Scoreboard.t) (h : Host) :
  let '(this', h') := Scoreboard.run cs this h in
  let el := getElement (Scoreboard.component this) in
  Scoreboard.component this' = Scoreboard.component this ∧
  Scoreboard.initialValue this' = Scoreboard.initialValue this ∧
  intervals h' = intervals h ∧
  next_interval h' = next_interval h ∧
  elementsById h' = elementsById h ∧
  (∀ el', el' ≠ el → displayed el' h' = displayed el' h) ∧
  ∃ texts : list string,
    length texts = length cs ∧ trace h' = trace h ++ (EvSetText el <$> texts).
Proof.
  revert this h. induction cs as [|c cs IH]; intros this h.
  - simpl. split_and!; try done. exists []. split; [done|]. simpl.
    now rewrite app_nil_r.
  - rewrite run_cons. specialize (IH (Scoreboard.step c this h).1 (Scoreboard.step c this h).2).
    destruct (Scoreboard.run cs _ _) as [this' h'].
    cbv zeta in IH |- *.
    rewrite step_component, step_initialValue in IH.
    destruct IH as (Hc & Hi & Hint & Hn & He & Hd & texts & Hlen & Htr).
    rewrite step_host in Hint, Hn, He, Htr. simpl in Hint, Hn, He, Htr.
    split_and!; try done.
    + intros el' Hne. rewrite (Hd el' Hne), step_host.
      apply displayed_setText_other. now rewrite step_component.
    + exists (("Score: " +:+ pretty (Scoreboard.score (Scoreboard.step c this h).1)) :: texts).
      split; [simpl; now rewrite Hlen|].
      rewrite Htr, step_component. simpl. now rewrite <- app_assoc.
Qed.

(** X3. A [reset] wipes out whatever came before it: after any calls, a
    [reset] and then the deltas [ds], with every running total from the
    initial value a safe integer, the score is the initial value plus the
    sum of [ds], and the display shows it. *)
Theorem reset_forgets_history
    (cs : list Scoreboard.call) (ds : list Z) (this : Scoreboard.t) (h : Host) :
  running_safe (Scoreboard.initialValue this) ds →
  let '(this', h') :=
    Scoreboard.run (cs ++ Scoreboard.CallReset :: (Scoreboard.CallUpdate <$> ds))
                   this h in
  Scoreboard.score this' = Scoreboard.initialValue this + sum ds ∧
  Scoreboard.display this' h' =
    Some ("Score: " +:+ pretty (Scoreboard.initialValue this + sum ds)).
Proof.
  intros Hsafe. rewrite run_app, run_cons, run_updates.
  pose proof (run_initialValue cs this h) as Hi.
  destruct (Scoreboard.run cs this h) as [this1 h1]. simpl in Hi |- *.
  set (this2 := Scoreboard.mk _ _ _).
  set (h2 := Scoreboard.updateDisplay this2 h1).
  assert (running_safe (Scoreboard.score this2) ds) as Hsafe2
    by (subst this2; simpl; now rewrite Hi).
  pose proof (updates_score ds this2 h2 Hsafe2) as Hs.
  pose proof (updates_in_sync ds this2 h2 (updateDisplay_in_sync this2 h1)) as Hd.
  destruct (Scoreboard.updates ds this2 h2) as [this' h']. simpl in Hs, Hd.
  rewrite Hi in Hs. split; [exact Hs|].
  unfold Scoreboard.in_sync in Hd. now rewrite Hs in Hd.
Qed.

Lemma reset_forgets_history_witness :
  let this := Scoreboard.mk (mkGameComponent 0%nat) 10 10 in
  let '(this', h') :=
    Scoreboard.run [Scoreboard.CallUpdate 7; Scoreboard.CallUpdate (-30);
                    Scoreboard.CallReset; Scoreboard.CallUpdate 5;
                    Scoreboard.CallUpdate (-8)]
                   this (Scoreboard.updateDisplay this page) in
  Scoreboard.score this' = 10 + sum [5; -8] ∧
  Scoreboard.display this' h' = Some ("Score: " +:+ pretty (10 + sum [5; -8])).
Proof.
  apply (reset_forgets_history
           [Scoreboard.CallUpdate 7; Scoreboard.CallUpdate (-30)] [5; -8]
           (Scoreboard.mk (mkGameComponent 0%nat) 10 10)
           (Scoreboard.updateDisplay (Scoreboard.mk (mkGameComponent 0%nat) 10 10) page)).
  simpl. unfold safe. lia.
Defined.



(** X5. Two scoreboards on different elements do not disturb each other:
    a call on one leaves the display of the other in step with its score.
    Bound to the same element they share the text: after a call on one, the
    element shows that one's score, so the other is in step only if the two
    scores are equal. *)
Theorem scoreboards_share_the_element
    (this other : Scoreboard.t) (c : Scoreboard.call) (h : Host) :
  Scoreboard.in_sync other h →
  let '(this', h') := Scoreboard.step c this h in
  (getElement (Scoreboard.component this) ≠ getElement (Scoreboard.component other) →
     Scoreboard.in_sync other h') ∧
  (getElement (Scoreboard.component this) = getElement (Scoreboard.component other) →
     Scoreboard.display other h' =
       Some ("Score: " +:+ pretty (Scoreboard.score this')) ∧
     (Scoreboard.in_sync other h' ↔
        Scoreboard.score other = Scoreboard.score this')).
Proof.
  intros Hs.
  pose proof (step_host c this h) as Hh. pose proof (step_component c this h) as Hc.
  destruct (Scoreboard.step c this h) as [this' h']. simpl in *. subst h'.
  unfold Scoreboard.in_sync, Scoreboard.display, Scoreboard.updateDisplay in *.
  split.
  - intros Hne. rewrite displayed_setText_other; [exact Hs|].
    rewrite Hc. intros E. apply Hne. now symmetry.
  - intros He. rewrite <- He, <- Hc, displayed_setText. split; [done|]. split.
    + intros H. apply (inj Some) in H. symmetry. now apply score_text_inj.
    + now intros ->.
Qed.

Lemma scoreboards_share_the_element_witness :
  let this := Scoreboard.mk (mkGameComponent 0%nat) 0 5 in
  let other := Scoreboard.mk (mkGameComponent 0%nat) 0 2 in
  let h := Scoreboard.updateDisplay other page in
  Scoreboard.display other (Scoreboard.update 1 this h).2 = Some "Score: 6" ∧
  ¬ Scoreboard.in_sync other (Scoreboard.update 1 this h).2.
Proof.
  intros this other h.
  destruct (scoreboards_share_the_element this other (Scoreboard.CallUpdate 1) h)
    as [_ Hsame].
  - reflexivity.
  - destruct (Hsame eq_refl) as [Hd Hiff]. split; [exact Hd|].
    intros Hs. apply Hiff in Hs. discriminate Hs.
Defined.

(** ** Countdowns *)

(** X6. A Timer built with a positive duration [n + 1], given a callback and
    started: for the first [n] ticks the remaining time goes down by one per
    tick and is shown, the timer stays running, and nothing is cancelled or
    called; tick [n + 1] shows "Time: 0", cancels the interval, calls the
    callback once and leaves the timer idle, and later periods of the
    interval do nothing. *)
Theorem countdown_of_any_duration
    (idValue : string) (el : Element) (v : Callback) (w0 : World) (n : nat) :
  owners_allocated w0 →
  getElementById idValue (host w0) = Some el →
  let a := fresh (dom (heap w0)) in
  let id := next_interval (host w0) in
  let w2 := Timer_startCountdown a
              (Timer_assign_callback a v
                 (Timer_new idValue (Z.of_nat (S n)) w0).2) in
  (∀ k : nat, (k ≤ n)%nat →
     let wk := fires k id w2 in
     field Timer.timeRemaining a wk = Some (Z.of_nat (S n) - Z.of_nat k) ∧
     (k ≠ 0%nat →
        display a wk = Some ("Time: " +:+ pretty (Z.of_nat (S n) - Z.of_nat k))) ∧
     Running a id wk ∧
     calls (trace (host wk)) = calls (trace (host w0)) ∧
     cleared (trace (host wk)) = cleared (trace (host w0))) ∧
  let wn := fires (S n) id w2 in
  field Timer.timeRemaining a wn = Some 0 ∧
  display a wn = Some "Time: 0" ∧
  Idle a wn ∧
  calls (trace (host wn)) = calls (trace (host w0)) ++ fired v ∧
  cleared (trace (host wn)) = cleared (trace (host w0)) ++ [id] ∧
  ∀ k, fires (S n + k) id w2 = wn.
Proof.
  intros Hok Hel a id w2.
  destruct (constructed_started idValue el (Z.of_nat (S n)) v w0 Hok Hel)
    as (_ & Ha & HR & Hc & Hcl).
  fold a id w2 in Ha, HR, Hc, Hcl.
  pose proof (Running_active _ _ _ HR) as Hid.
  split.
  - intros k Hk wk.
    pose proof (fires_continue a id _ w2 k Ha Hid ltac:(right; simpl; lia)) as T.
    fold wk in T. split_and!.
    + unfold field. now rewrite (ticked_heap _ _ _ _ _ T), lookup_insert_eq.
    + intros Hk0. now rewrite (display_ticked _ _ _ _ _ T Hk0).
    + apply (ticked_Running _ _ _ _ _ _ HR Ha T).
    + now rewrite (ticked_calls _ _ _ _ _ T).
    + now rewrite (ticked_cleared _ _ _ _ _ T).
  - intros wn.
    pose proof (fires_finish a id _ w2 n Ha Hid eq_refl eq_refl) as F. fold wn in F.
    split_and!.
    + unfold field. now rewrite (finished_heap _ _ _ _ _ F), lookup_insert_eq.
    + apply (display_finished _ _ _ _ _ F).
    + apply (finished_Idle _ _ _ _ _ HR F).
    + now rewrite (finished_calls _ _ _ _ _ F), Hc.
    + now rewrite (finished_cleared _ _ _ _ _ F), Hcl.
    + intros k. rewrite fires_add. apply (finished_no_more _ _ _ _ _ k F).
Qed.

Lemma countdown_of_any_duration_witness :
  let w2 := run [ActNew "timer" 5; ActAssign 0%nat (JFunction "gameOver");
                 ActStart 0%nat] world0 in
  field Timer.timeRemaining 0%nat (fires 4 1%positive w2) = Some 1 ∧
  calls (trace (host (fires 4 1%positive w2))) = [] ∧
  display 0%nat (fires 5 1%positive w2) = Some "Time: 0" ∧
  calls (trace (host (fires 5 1%positive w2))) = ["gameOver"] ∧
  fires 9 1%positive w2 = fires 5 1%positive w2.
Proof.
  destruct (countdown_of_any_duration "timer" 1%nat (JFunction "gameOver") world0 4)
    as (Hk & _ & H0 & _ & Hc & _ & Hm).
  - unfold owners_allocated. simpl. apply map_Forall_empty.
  - reflexivity.
  - destruct (Hk 4%nat (le_n 4)) as (H4 & _ & _ & Hc4 & _).
    split; [exact H4|]. split; [exact Hc4|]. split; [exact H0|].
    split; [exact Hc | exact (Hm 4%nat)].
Defined.

(** X7. A running timer whose remaining time is zero or negative never
    completes: every tick takes one more off and shows it, the interval
    stays active, and no tick cancels anything or calls the callback. *)
Theorem nonpositive_time_never_completes
    (a : addr) (id : positive) (this : Timer.t) (w : World) (k : nat) :
  heap w !! a = Some this →
  Running a id w →
  Timer.timeRemaining this ≤ 0 →
  let w' := fires k id w in
  field Timer.timeRemaining a w' = Some (Timer.timeRemaining this - Z.of_nat k) ∧
  (k ≠ 0%nat →
     display a w' =
       Some ("Time: " +:+ pretty (Timer.timeRemaining this - Z.of_nat k))) ∧
  Running a id w' ∧
  calls (trace (host w')) = calls (trace (host w)) ∧
  cleared (trace (host w')) = cleared (trace (host w)).
Proof.
  intros Ha HR Hle w'.
  pose proof (fires_continue a id this w k Ha (Running_active _ _ _ HR)
                ltac:(now left)) as T.
  fold w' in T. split_and!.
  - unfold field. now rewrite (ticked_heap _ _ _ _ _ T), lookup_insert_eq.
  - intros Hk0. now rewrite (display_ticked _ _ _ _ _ T Hk0).
  - apply (ticked_Running _ _ _ _ _ _ HR Ha T).
  - apply (ticked_calls _ _ _ _ _ T).
  - apply (ticked_cleared _ _ _ _ _ T).
Qed.

Lemma nonpositive_time_never_completes_witness :
  let w := run [ActNew "timer" (-2); ActAssign 0%nat (JFunction "gameOver");
                ActStart 0%nat] world0 in
  display 0%nat (fires 3 1%positive w) = Some "Time: -5" ∧
  Running 0%nat 1%positive (fires 3 1%positive w) ∧
  calls (trace (host (fires 3 1%positive w))) = [].
Proof.
  intros w.
  destruct (nonpositive_time_never_completes 0%nat 1%positive
              (Timer.mk (mkGameComponent 1%nat) (-2) (-2) (Some 1%positive)
                        (JFunction "gameOver")) w 3)
    as (_ & Hd & HR & Hc & _).
  - reflexivity.
  - split; reflexivity.
  - simpl. lia.
  - split; [apply Hd; lia|]. split; [exact HR | exact Hc].
Defined.

(** X8. [startCountdown] does not put the time back.  Started again after a
    completed countdown, without a [reset] in between, the timer runs from
    0: it shows "Time: -1", "Time: -2", and so on, its interval is never
    cancelled and the callback is not called again. *)
Theorem restart_without_reset
    (a : addr) (id : positive) (this : Timer.t) (w : World) (n k : nat) :
  heap w !! a = Some this →
  Running a id w →
  Timer.timeRemaining this = Z.of_nat (S n) →
  let w1 := fires (S n) id w in
  let id' := next_interval (host w1) in
  let w2 := Timer_startCountdown a w1 in
  let w3 := fires (S k) id' w2 in
  field Timer.timeRemaining a w2 = Some 0 ∧
  display a w2 = Some "Time: 0" ∧
  Running a id' w2 ∧
  field Timer.timeRemaining a w3 = Some (- Z.of_nat (S k)) ∧
  display a w3 = Some ("Time: " +:+ pretty (- Z.of_nat (S k))) ∧
  Running a id' w3 ∧
  calls (trace (host w3)) = calls (trace (host w1)) ∧
  cleared (trace (host w3)) = cleared (trace (host w1)).
Proof.
  intros Ha HR Hn w1 id' w2 w3.
  pose proof (Running_active _ _ _ HR) as Hid.
  pose proof (Running_intervalId _ _ _ _ Ha HR) as Hint.
  pose proof (fires_finish a id this w n Ha Hid Hint Hn) as F. fold w1 in F.
  pose proof (finished_Idle _ _ _ _ _ HR F) as HI.
  set (this1 := Timer.set_timeRemaining 0 this) in *.
  assert (heap w1 !! a = Some this1) as Ha1
    by (rewrite (finished_heap _ _ _ _ _ F); apply lookup_insert_eq).
  pose proof (startCountdown_Running _ _ _ Ha1 HI) as HR2. fold id' w2 in HR2.
  pose proof (startCountdown_eq _ _ _ Ha1) as E2. fold id' w2 in E2.
  set (this2 := Timer.set_intervalId id' this1) in *.
  assert (heap w2 !! a = Some this2) as Ha2 by (rewrite E2; apply lookup_insert_eq).
  pose proof (fires_continue a id' this2 w2 (S k) Ha2 (Running_active _ _ _ HR2)
                ltac:(left; simpl; lia)) as T.
  fold w3 in T.
  split_and!.
  - unfold field. now rewrite Ha2.
  - rewrite E2, display_insert. simpl.
    apply (finished_display _ _ _ _ _ F).
  - exact HR2.
  - unfold field. now rewrite (ticked_heap _ _ _ _ _ T), lookup_insert_eq.
  - now rewrite (display_ticked _ _ _ _ _ T).
  - apply (ticked_Running _ _ _ _ _ _ HR2 Ha2 T).
  - rewrite (ticked_calls _ _ _ _ _ T). subst w2. apply startCountdown_calls.
  - rewrite (ticked_cleared _ _ _ _ _ T), E2. simpl. rewrite cleared_app. cbn.
    apply app_nil_r.
Qed.

Lemma restart_without_reset_witness :
  let w1 := fires 3 1%positive world_started in
  let w3 := fires 2 2%positive (Timer_startCountdown 0%nat w1) in
  display 0%nat w3 = Some "Time: -2" ∧
  Running 0%nat 2%positive w3 ∧
  calls (trace (host w3)) = ["gameOver"].
Proof.
  intros w1 w3.
  destruct (restart_without_reset 0%nat 1%positive
              (Timer.mk (mkGameComponent 1%nat) 3 3 (Some 1%positive)
                        (JFunction "gameOver")) world_started 2 1)
    as (_ & _ & _ & _ & Hd & HR & Hc & _).
  - reflexivity.
  - split; reflexivity.
  - reflexivity.
  - split; [exact Hd|]. split; [exact HR | exact Hc].
Defined.

(** ** Overlapping countdowns and the ids of the host *)

Section IntervalIds.

Import Timer.

Lemma cancels_only_reset : cancels_only reset_body.
Proof.
  intros this h. unfold reset_body. simpl.
  destruct (intervalId this) as [i|] eqn:Hi; simpl; split_and!; eauto.
Qed.

Lemma cancels_only_tick : cancels_only tick.
Proof.
  intros this h. unfold tick. simpl.
  case_decide; [|split_and!; eauto].
  destruct (intervalId this) as [i|] eqn:Hi;
    destruct (countdownTimerEndCallback this); simpl; rewrite ?Hi;
    split_and!; eauto.
Qed.

Lemma cancels_only_assign v : cancels_only (λ this h, (set_callback v this, h)).
Proof. intros this h. simpl. split_and!; eauto. Qed.

Lemma run_cons_act x xs w : run (x :: xs) w = run xs (act x w).
Proof. reflexivity. Qed.

Lemma ids_coherent_on_instance b body w :
  cancels_only body → ids_coherent w → ids_coherent (on_instance b body w).
Proof.
  intros Hbody [Hab Hsb Hso].
  destruct (heap w !! b) as [this|] eqn:Hb;
    [|now rewrite on_instance_dangling].
  rewrite (on_instance_eq _ _ _ _ Hb).
  destruct (Hbody this (host w)) as (Hkeep & Hnext & Hint).
  assert (∀ id c, intervals (body this (host w)).2 !! id = Some c →
                  intervals (host w) !! id = Some c) as Hsub.
  { intros id c. destruct Hint as [->|(i & _ & ->)]; [done|].
    rewrite lookup_delete_Some. tauto. }
  assert (∀ c t id, <[b := (body this (host w)).1]> (heap w) !! c = Some t →
                    intervalId t = Some id →
                    ∃ t0, heap w !! c = Some t0 ∧ intervalId t0 = Some id) as Hold.
  { intros c t id Hc Hi. apply lookup_insert_Some in Hc as [[<- <-]|[_ Hc]]; [|eauto].
    exists this. split; [done|]. now rewrite <- Hkeep. }
  split; simpl; rewrite ?Hnext.
  - intros id c Hid. eapply Hab, Hsub, Hid.
  - intros c t id Hc Hi. destruct (Hold c t id Hc Hi) as (t0 & H0 & Hi0).
    eapply Hsb; eassumption.
  - intros c t id d Hc Hi Hd. destruct (Hold c t id Hc Hi) as (t0 & H0 & Hi0).
    eapply Hso; eauto.
Qed.

Lemma ids_coherent_act x w : ids_coherent w → ids_coherent (act x w).
Proof.
  intros Hco. destruct x as [idValue n|b|b|b v|id]; simpl.
  - destruct (getElementById idValue (host w)) as [el|] eqn:Hel;
      [|now rewrite (Timer_new_missing _ n _ Hel)].
    rewrite (Timer_new_found _ n _ _ Hel). simpl.
    destruct Hco as [Hab Hsb Hso].
    assert (∀ c t id, <[fresh (dom (heap w)) := Timer.mk (mkGameComponent el) n n None JNull]>
                        (heap w) !! c = Some t →
                      intervalId t = Some id → heap w !! c = Some t) as Hold.
    { intros c t id Hc Hi. apply lookup_insert_Some in Hc as [[_ <-]|[_ Hc]]; done. }
    split; simpl.
    + exact Hab.
    + intros c t id Hc Hi. eapply Hsb; eauto.
    + intros c t id d Hc Hi Hd. eapply Hso; eauto.
  - destruct (heap w !! b) as [this|] eqn:Hb;
      [|unfold Timer_startCountdown; now rewrite on_instance_dangling].
    rewrite (startCountdown_eq _ _ _ Hb).
    destruct Hco as [Hab Hsb Hso]. split; simpl.
    + intros id c Hid. apply lookup_insert_Some in Hid as [[<- _]|[_ Hid]].
      * lia.
      * apply Hab in Hid. lia.
    + intros c t id Hc Hi. apply lookup_insert_Some in Hc as [[_ <-]|[_ Hc]].
      * simpl in Hi. injection Hi as <-. lia.
      * pose proof (Hsb c t id Hc Hi). lia.
    + intros c t id d Hc Hi Hd.
      apply lookup_insert_Some in Hc as [[<- <-]|[Hne Hc]].
      * simpl in Hi. injection Hi as <-. rewrite lookup_insert_eq in Hd. congruence.
      * pose proof (Hsb c t id Hc Hi) as Hlt.
        rewrite lookup_insert_ne in Hd by lia. eapply Hso; eauto.
  - apply ids_coherent_on_instance; [apply cancels_only_reset | done..].
  - apply ids_coherent_on_instance; [apply cancels_only_assign | done..].
  - unfold fire. destruct (intervals (host w) !! id) as [b|]; [|done].
    apply ids_coherent_on_instance; [apply cancels_only_tick | done..].
Qed.

Lemma ids_coherent_run xs : ∀ w, ids_coherent w → ids_coherent (run xs w).
Proof.
  induction xs as [|x xs IH]; intros w Hco; [done|].
  rewrite run_cons_act. now apply IH, ids_coherent_act.
Qed.

Lemma ids_coherent_empty h :
  intervals h = ∅ → ids_coherent (mkWorld ∅ h).
Proof.
  intros He. split; simpl.
  - intros id b. now rewrite He, lookup_empty.
  - intros b this id. now rewrite lookup_empty.
  - intros b this id c. now rewrite lookup_empty.
Qed.

Lemma orphaned_on_instance a id b body w :
  cancels_only body → ids_coherent w →
  orphaned a id w → orphaned a id (on_instance b body w).
Proof.
  intros Hbody Hco [Hid Hf].
  destruct (heap w !! b) as [this|] eqn:Hb;
    [|now rewrite on_instance_dangling].
  rewrite (on_instance_eq _ _ _ _ Hb).
  destruct (Hbody this (host w)) as (Hkeep & _ & Hint).
  split; simpl.
  - destruct Hint as [->|(i & Hi & ->)]; [done|].
    rewrite lookup_delete_ne; [done|]. intros ->.
    pose proof (stored_owner _ Hco b this id a Hb Hi Hid) as ->.
    apply Hf. unfold field. rewrite Hb. simpl. now rewrite Hi.
  - unfold field in *. simpl. destruct (decide (a = b)) as [->|Hab].
    + rewrite lookup_insert_eq. simpl. rewrite Hkeep. now rewrite Hb in Hf.
    + now rewrite lookup_insert_ne.
Qed.

Lemma orphaned_act a id x w :
  ids_coherent w → orphaned a id w → orphaned a id (act x w).
Proof.
  intros Hco Hor. destruct x as [idValue n|b|b|b v|id0]; simpl.
  - destruct (getElementById idValue (host w)) as [el|] eqn:Hel;
      [|now rewrite (Timer_new_missing _ n _ Hel)].
    rewrite (Timer_new_found _ n _ _ Hel). destruct Hor as [Hid Hf].
    split; simpl; [done|]. unfold field in *. simpl.
    destruct (decide (a = fresh (dom (heap w)))) as [->|Hne].
    + now rewrite lookup_insert_eq.
    + now rewrite lookup_insert_ne.
  - destruct (heap w !! b) as [this|] eqn:Hb;
      [|unfold Timer_startCountdown; now rewrite on_instance_dangling].
    rewrite (startCountdown_eq _ _ _ Hb). destruct Hor as [Hid Hf].
    pose proof (active_below _ Hco id a Hid) as Hlt.
    split; simpl.
    + rewrite lookup_insert_ne by lia. done.
    + unfold field in *. simpl. destruct (decide (a = b)) as [->|Hab].
      * rewrite lookup_insert_eq. simpl. intros [= E]. lia.
      * now rewrite lookup_insert_ne.
  - apply orphaned_on_instance; [apply cancels_only_reset | done..].
  - apply orphaned_on_instance; [apply cancels_only_assign | done..].
  - unfold fire. destruct (intervals (host w) !! id0) as [b|]; [|done].
    apply orphaned_on_instance; [apply cancels_only_tick | done..].
Qed.

End IntervalIds.

(** X9. [startCountdown] on a timer that is already running adds a second
    interval and keeps the first: both tick, [intervalId] names the new one
    only, and the time is not put back.  One period of both takes two off
    the remaining time.  When the tick of the older interval is the one that
    reaches 0 it cancels the newer interval, not itself: the callback is
    called, but the older interval stays active and its next tick shows
    "Time: -1". *)
Theorem second_start_overlaps_first
    (a : addr) (id1 : positive) (this : Timer.t) (w : World) :
  heap w !! a = Some this →
  Running a id1 w →
  (id1 < next_interval (host w))%positive →
  let id2 := next_interval (host w) in
  let w2 := Timer_startCountdown a w in
  active_ticks a w2 = {[id1; id2]} ∧
  field Timer.intervalId a w2 = Some (Some id2) ∧
  field Timer.timeRemaining a w2 = Some (Timer.timeRemaining this) ∧
  innerText (host w2) = innerText (host w) ∧
  (Timer.timeRemaining this ≠ 1 →
     field Timer.timeRemaining a (fire id2 (fire id1 w2)) =
       Some (Timer.timeRemaining this - 2)) ∧
  (Timer.timeRemaining this = 1 →
     let w3 := fire id1 w2 in
     intervals (host w3) !! id1 = Some a ∧
     intervals (host w3) !! id2 = None ∧
     cleared (trace (host w3)) = cleared (trace (host w)) ++ [id2] ∧
     calls (trace (host w3)) =
       calls (trace (host w)) ++ fired (Timer.countdownTimerEndCallback this) ∧
     display a (fire id1 w3) = Some "Time: -1" ∧
     intervals (host (fire id1 w3)) !! id1 = Some a).
Proof.
  intros Ha HR Hlt id2 w2.
  pose proof (Running_active _ _ _ HR) as Hid1.
  pose proof (startCountdown_eq _ _ _ Ha) as E2. fold id2 w2 in E2.
  set (this2 := Timer.set_intervalId id2 this) in *.
  assert (id1 ≠ id2) as Hne by (subst id2; lia).
  assert (heap w2 !! a = Some this2) as Ha2 by (rewrite E2; apply lookup_insert_eq).
  assert (intervals (host w2) = <[id2 := a]> (intervals (host w))) as Hi2
    by now rewrite E2.
  assert (intervals (host w2) !! id1 = Some a) as H21
    by (rewrite Hi2, lookup_insert_ne; done).
  split_and!.
  - rewrite (active_ticks_insert a id2 w w2 Hi2). destruct HR as [_ ->].
    apply (comm_L (∪)).
  - unfold field. now rewrite Ha2.
  - unfold field. now rewrite Ha2.
  - now rewrite E2.
  - intros H1.
    pose proof (fire_continue _ _ _ _ Ha2 H21 H1) as E3.
    set (this3 := Timer.set_timeRemaining (Timer.timeRemaining this2 - 1) this2) in *.
    assert (heap (fire id1 w2) !! a = Some this3) as Ha3
      by (rewrite E3; apply lookup_insert_eq).
    assert (intervals (host (fire id1 w2)) !! id2 = Some a) as H32
      by (rewrite E3; simpl; rewrite Hi2; apply lookup_insert_eq).
    destruct (decide (Timer.timeRemaining this3 = 1)) as [Hz|Hz].
    + rewrite (fire_finish _ _ _ _ Ha3 H32 Hz), field_insert. simpl.
      f_equal. simpl in Hz. lia.
    + rewrite (fire_continue _ _ _ _ Ha3 H32 Hz), field_insert. simpl.
      f_equal. lia.
  - intros H1 w3.
    pose proof (fire_finish _ _ _ _ Ha2 H21 H1) as E3. fold w3 in E3.
    simpl in E3.
    set (this3 := Timer.set_timeRemaining 0 this2) in *.
    assert (heap w3 !! a = Some this3) as Ha3 by (rewrite E3; apply lookup_insert_eq).
    assert (intervals (host w3) = delete id2 (intervals (host w2))) as Hi3
      by (rewrite E3; simpl; now rewrite intervals_invoke).
    assert (intervals (host w3) !! id1 = Some a) as H31
      by (rewrite Hi3, lookup_delete_ne; done).
    assert (Timer.timeRemaining this3 ≠ 1) as Hz by (simpl; lia).
    split_and!.
    + exact H31.
    + rewrite Hi3. apply lookup_delete_eq.
    + rewrite E3, E2. simpl. rewrite trace_invoke. simpl.
      rewrite !cleared_app, cleared_EvCall. cbn. now rewrite !app_nil_r.
    + rewrite E3, E2. simpl. rewrite trace_invoke. simpl.
      rewrite !calls_app, calls_EvCall. cbn. now rewrite !app_nil_r.
    + rewrite (fire_continue _ _ _ _ Ha3 H31 Hz), display_insert.
      apply (displayed_setText (Timer.component this)).
    + now rewrite (fire_continue _ _ _ _ Ha3 H31 Hz).
Qed.

Lemma second_start_overlaps_first_witness :
  let w := fires 2 1%positive world_started in
  let w3 := fire 1%positive (Timer_startCountdown 0%nat w) in
  active_ticks 0%nat (Timer_startCountdown 0%nat w) = {[1%positive; 2%positive]} ∧
  intervals (host w3) !! 1%positive = Some 0%nat ∧
  intervals (host w3) !! 2%positive = None ∧
  display 0%nat (fire 1%positive w3) = Some "Time: -1".
Proof.
  intros w w3.
  destruct (second_start_overlaps_first 0%nat 1%positive
              (Timer.mk (mkGameComponent 1%nat) 3 1 (Some 1%positive)
                        (JFunction "gameOver")) w)
    as (Hact & _ & _ & _ & _ & Hz).
  - reflexivity.
  - split; reflexivity.
  - reflexivity.
  - destruct (Hz eq_refl) as (H1 & H2 & _ & _ & Hd & _).
    split; [exact Hact|]. split; [exact H1|]. split; [exact H2 | exact Hd].
Defined.

(** X10. A Timer only ever stores ids the host gave it.  With a host that
    hands out interval ids in increasing order, the following holds in every
    world reached from a page without intervals and without timers, and is
    kept by every action: each active id and each id stored in an
    [intervalId] is below the next id, and a stored id that is still active
    runs the tick of the instance that stores it.  So the id the next
    [startCountdown] gets is neither active nor stored in any instance. *)
Theorem interval_ids_are_never_reused (xs : list Action) (w : World) :
  ids_coherent w →
  let w' := run xs w in
  let id := next_interval (host w') in
  ids_coherent w' ∧
  intervals (host w') !! id = None ∧
  ∀ b this, heap w' !! b = Some this → Timer.intervalId this ≠ Some id.
Proof.
  intros Hco w' id.
  pose proof (ids_coherent_run xs w Hco) as Hco'. fold w' in Hco'.
  split; [exact Hco'|]. split.
  - destruct (intervals (host w') !! id) as [b|] eqn:Hid; [|done].
    pose proof (active_below _ Hco' id b Hid). subst id. lia.
  - intros b this Hb Hi.
    pose proof (stored_below _ Hco' b this id Hb Hi). subst id. lia.
Qed.

Lemma interval_ids_are_never_reused_witness :
  let w' := run [ActNew "timer" 3; ActStart 0%nat; ActFire 1%positive;
                 ActReset 0%nat; ActStart 0%nat] world0 in
  next_interval (host w') = 3%positive ∧
  intervals (host w') !! 3%positive = None ∧
  ids_coherent w'.
Proof.
  intros w'.
  destruct (interval_ids_are_never_reused
              [ActNew "timer" 3; ActStart 0%nat; ActFire 1%positive;
               ActReset 0%nat; ActStart 0%nat] world0) as (Hco & Hn & _).
  - apply ids_coherent_empty. reflexivity.
  - split; [reflexivity|]. split; [exact Hn | exact Hco].
Defined.

(** X11. A tick left behind by a second [startCountdown] can never be
    stopped: in a world with coherent ids, an active interval of an instance
    that the instance's [intervalId] does not name is still active, and
    still not named, after any sequence of constructions, [startCountdown],
    [reset], callback assignments and ticks on any instances. *)
Theorem orphaned_tick_is_permanent
    (a : addr) (id : positive) (xs : list Action) (w : World) :
  ids_coherent w →
  orphaned a id w →
  orphaned a id (run xs w) ∧ ¬ Idle a (run xs w).
Proof.
  intros Hco Hor.
  assert (orphaned a id (run xs w)) as Hor'.
  { revert w Hco Hor. induction xs as [|x xs IH]; intros w Hco Hor; [done|].
    rewrite run_cons_act. apply IH; [now apply ids_coherent_act|].
    now apply orphaned_act. }
  split; [exact Hor'|]. intros HI. destruct Hor' as [Hid _].
  now apply (Idle_not_owner _ _ _ HI) in Hid.
Qed.

Lemma orphaned_tick_is_permanent_witness :
  let w := run [ActNew "timer" 3; ActStart 0%nat; ActStart 0%nat] world0 in
  let w' := run [ActReset 0%nat; ActFire 1%positive; ActStart 0%nat;
                 ActReset 0%nat; ActReset 0%nat] w in
  intervals (host w') !! 1%positive = Some 0%nat ∧ ¬ Idle 0%nat w'.
Proof.
  intros w w'.
  destruct (orphaned_tick_is_permanent 0%nat 1%positive
              [ActReset 0%nat; ActFire 1%positive; ActStart 0%nat;
               ActReset 0%nat; ActReset 0%nat] w) as [[Hid _] HnI].
  - apply (ids_coherent_run [ActNew "timer" 3; ActStart 0%nat; ActStart 0%nat] world0).
    apply ids_coherent_empty. reflexivity.
  - split; [reflexivity|]. vm_compute. discriminate.
  - split; [exact Hid | exact HnI].
Defined.

(** ** Several timers on one page *)

Section ManyTimers.

Import Timer.

Lemma displayed_invoke el v h : displayed el (invoke v h) = displayed el h.
Proof. unfold displayed. now rewrite innerText_invoke. Qed.

Lemma displayed_clearInterval_var el oid h :
  displayed el (clearInterval_var oid h) = displayed el h.
Proof. now destruct oid. Qed.

Lemma method_facts_reset : method_facts reset_body.
Proof.
  split; intros this h.
  - done.
  - done.
  - intros _. simpl. lia.
  - unfold reset_body. now destruct (intervalId this).
  - intros el Hne. unfold reset_body, updateDisplay. simpl.
    rewrite displayed_setText_other by done.
    now destruct (intervalId this).
  - intros _. unfold reset_body, updateDisplay. simpl.
    apply (displayed_setText (component this)).
Qed.

Lemma method_facts_tick : method_facts tick.
Proof.
  split; intros this h.
  - unfold tick. simpl. case_decide; [|done].
    now destruct (countdownTimerEndCallback this).
  - unfold tick. simpl. case_decide; [|done].
    now destruct (countdownTimerEndCallback this).
  - intros Hle. unfold tick. simpl. case_decide; [|simpl; lia].
    destruct (countdownTimerEndCallback this); simpl; lia.
  - unfold tick. simpl. case_decide; [|done].
    destruct (countdownTimerEndCallback this), (intervalId this); done.
  - intros el Hne. rewrite (surjective_pairing (tick this h)).
    destruct (decide (timeRemaining this = 1)) as [H1|H1].
    + rewrite (tick_finish _ _ H1). simpl.
      rewrite displayed_invoke, displayed_clearInterval_var.
      now apply (displayed_setText_other (component this)).
    + rewrite (tick_continue _ _ H1). simpl.
      now apply (displayed_setText_other (component this)).
  - intros _. destruct (decide (timeRemaining this = 1)) as [H1|H1].
    + rewrite (tick_finish _ _ H1). simpl.
      rewrite displayed_invoke, displayed_clearInterval_var.
      apply (displayed_setText (component this)).
    + rewrite (tick_continue _ _ H1). simpl.
      apply (displayed_setText (component this)).
Qed.

Lemma method_facts_start self : method_facts (startCountdown_body self).
Proof. split; intros this h; done. Qed.

Lemma method_facts_assign v : method_facts (λ this h, (set_callback v this, h)).
Proof. split; intros this h; done. Qed.

Lemma active_ticks_foreign_delete b i w w' :
  intervals (host w') = delete i (intervals (host w)) →
  intervals (host w) !! i ≠ Some b →
  active_ticks b w' = active_ticks b w.
Proof.
  intros E Hi. rewrite (active_ticks_delete b i w w' E).
  apply set_eq. intros x. rewrite elem_of_difference, elem_of_singleton.
  split; [tauto|]. intros Hx. split; [done|]. intros ->.
  now apply elem_of_active_ticks in Hx.
Qed.

(** A method of the instance at [a] leaves the instance at [b] alone. *)
Lemma on_instance_foreign a b ta tb body w :
  cancels_only body → method_facts body → ids_coherent w →
  heap w !! a = Some ta → heap w !! b = Some tb → a ≠ b →
  let w' := on_instance a body w in
  heap w' !! b = Some tb ∧
  active_ticks b w' = active_ticks b w ∧
  (getElement (component ta) ≠ getElement (component tb) →
     display b w' = display b w).
Proof.
  intros Hc Hm Hco Ha Hb Hab w'. subst w'.
  rewrite (on_instance_eq _ _ _ _ Ha).
  destruct (Hc ta (host w)) as (_ & _ & Hint).
  split_and!.
  - simpl. now rewrite lookup_insert_ne.
  - destruct Hint as [E|(i & Hi & E)].
    + now apply active_ticks_same.
    + apply (active_ticks_foreign_delete b i w); [done|].
      intros Hib. apply Hab. symmetry.
      apply (stored_owner _ Hco a ta i b Ha Hi Hib).
  - intros Hne. unfold display. simpl.
    rewrite lookup_insert_ne, Hb by done. simpl.
    apply (mf_frame _ Hm). now intros E; apply Hne.
Qed.

End ManyTimers.

(** X12. Timers do not disturb one another through the host.  In a world
    with coherent ids, a method call or callback assignment on one instance,
    or a tick of one of its intervals, leaves every other instance as it was
    with the same active ticks; when the two are bound to different elements
    the other's display is unchanged too. *)
Theorem timers_do_not_interfere
    (a b : addr) (ta tb : Timer.t) (x : Action) (w : World) :
  ids_coherent w →
  heap w !! a = Some ta →
  heap w !! b = Some tb →
  a ≠ b →
  targets x a w →
  let w' := act x w in
  heap w' !! b = Some tb ∧
  active_ticks b w' = active_ticks b w ∧
  (getElement (Timer.component ta) ≠ getElement (Timer.component tb) →
     display b w' = display b w).
Proof.
  intros Hco Ha Hb Hab Ht w'. subst w'.
  destruct x as [idValue n|c|c|c v|id]; simpl in Ht; try subst c; simpl.
  - done.
  - rewrite (startCountdown_eq _ _ _ Ha). split_and!.
    + simpl. now rewrite lookup_insert_ne.
    + rewrite (active_ticks_insert_other b a (next_interval (host w)) w) by done.
      apply set_eq. intros y. rewrite elem_of_difference, elem_of_singleton.
      split; [tauto|]. intros Hy. split; [done|]. intros ->.
      apply elem_of_active_ticks in Hy.
      pose proof (active_below _ Hco _ _ Hy). lia.
    + intros _. unfold display. simpl. now rewrite lookup_insert_ne.
  - apply (on_instance_foreign a b ta tb); auto using cancels_only_reset, method_facts_reset.
  - apply (on_instance_foreign a b ta tb (λ this h, (Timer.set_callback v this, h)));
      auto using cancels_only_assign, method_facts_assign.
  - unfold fire. rewrite Ht.
    apply (on_instance_foreign a b ta tb); auto using cancels_only_tick, method_facts_tick.
Qed.

Lemma timers_do_not_interfere_witness :
  let w := run [ActNew "timer" 3; ActNew "scoreboard" 9; ActStart 0%nat;
                ActStart 1%nat; ActFire 1%positive] world0 in
  let w' := Timer_reset 0%nat w in
  active_ticks 1%nat w' = {[2%positive]} ∧
  display 1%nat w' = Some "Time: 9" ∧
  display 0%nat w' = Some "Time: 3".
Proof.
  intros w w'.
  destruct (timers_do_not_interfere 0%nat 1%nat
              (Timer.mk (mkGameComponent 1%nat) 3 2 (Some 1%positive) JNull)
              (Timer.mk (mkGameComponent 0%nat) 9 9 (Some 2%positive) JNull)
              (ActReset 0%nat) w) as (_ & Hact & Hd).
  - apply (ids_coherent_run [ActNew "timer" 3; ActNew "scoreboard" 9; ActStart 0%nat;
                             ActStart 1%nat; ActFire 1%positive] world0).
    apply ids_coherent_empty. reflexivity.
  - reflexivity.
  - reflexivity.
  - discriminate.
  - reflexivity.
  - split; [exact Hact|]. split; [|reflexivity].
    etransitivity; [apply Hd; discriminate | reflexivity].
Defined.

(** ** What stays true of a timer along any run *)

Section AlongRuns.

Import Timer.

Lemma on_instance_lookup b body w c t' :
  method_facts body →
  heap (on_instance b body w) !! c = Some t' →
  ∃ t, heap w !! c = Some t ∧
       component t' = component t ∧ initialTime t' = initialTime t ∧
       (c ≠ b → t' = t) ∧
       (c = b → t' = (body t (host w)).1).
Proof.
  intros Hm. destruct (heap w !! b) as [this|] eqn:Hb.
  - rewrite (on_instance_eq _ _ _ _ Hb). simpl. intros Hc.
    apply lookup_insert_Some in Hc as [[<- <-]|[Hne Hc]].
    + exists this. split_and!; [done| apply (mf_component _ Hm)
                                | apply (mf_initialTime _ Hm) | done | done].
    + exists t'. split_and!; try done; intros ->; congruence.
  - rewrite on_instance_dangling by done. intros Hc. exists t'.
    split_and!; try done; intros ->; congruence.
Qed.

Lemma on_instance_keeps a this b body w :
  method_facts body →
  heap w !! a = Some this →
  ∃ this', heap (on_instance b body w) !! a = Some this' ∧
    component this' = component this ∧
    initialTime this' = initialTime this ∧
    (timeRemaining this ≤ initialTime this →
     timeRemaining this' ≤ initialTime this').
Proof.
  intros Hm Ha. destruct (decide (a = b)) as [<-|Hab].
  - rewrite (on_instance_eq _ _ _ _ Ha). simpl. eexists.
    rewrite lookup_insert_eq. split; [done|].
    rewrite (mf_component _ Hm), (mf_initialTime _ Hm).
    split_and!; try done. apply (mf_bound _ Hm).
  - exists this. now rewrite on_instance_heap_other.
Qed.

Lemma act_keeps a this x w :
  heap w !! a = Some this →
  ∃ this', heap (act x w) !! a = Some this' ∧
    component this' = component this ∧
    initialTime this' = initialTime this ∧
    (timeRemaining this ≤ initialTime this →
     timeRemaining this' ≤ initialTime this').
Proof.
  intros Ha. destruct x as [idValue n|b|b|b v|id]; simpl.
  - exists this. split; [|done].
    destruct (getElementById idValue (host w)) as [el|] eqn:Hel;
      [|now rewrite (Timer_new_missing _ n _ Hel)].
    rewrite (Timer_new_found _ n _ _ Hel). simpl.
    rewrite lookup_insert_ne; [done|]. intros E.
    assert (a ∈ dom (heap w)) as Hin by (apply elem_of_dom; eauto).
    rewrite <- E in Hin. now apply is_fresh in Hin.
  - apply on_instance_keeps; [apply method_facts_start | done].
  - apply on_instance_keeps; [apply method_facts_reset | done].
  - apply (on_instance_keeps a this b (λ this h, (set_callback v this, h)));
      [apply method_facts_assign | done].
  - unfold fire. destruct (intervals (host w) !! id) as [b|]; [|eauto].
    apply on_instance_keeps; [apply method_facts_tick | done].
Qed.

Lemma elementsById_on_instance b body w :
  method_facts body →
  elementsById (host (on_instance b body w)) = elementsById (host w).
Proof.
  intros Hm. destruct (heap w !! b) as [this|] eqn:Hb.
  - rewrite (on_instance_eq _ _ _ _ Hb). simpl. apply (mf_elements _ Hm).
  - now rewrite on_instance_dangling.
Qed.

Lemma elementsById_act x w :
  elementsById (host (act x w)) = elementsById (host w).
Proof.
  destruct x as [idValue n|b|b|b v|id]; simpl.
  - destruct (getElementById idValue (host w)) as [el|] eqn:Hel.
    + now rewrite (Timer_new_found _ n _ _ Hel).
    + now rewrite (Timer_new_missing _ n _ Hel).
  - apply elementsById_on_instance, method_facts_start.
  - apply elementsById_on_instance, method_facts_reset.
  - apply (elementsById_on_instance b (λ this h, (set_callback v this, h))),
      method_facts_assign.
  - unfold fire. destruct (intervals (host w) !! id) as [b|]; [|done].
    apply elementsById_on_instance, method_facts_tick.
Qed.

Lemma synced_on_instance a b body w :
  method_facts body →
  synced a w → private_element a w →
  synced a (on_instance b body w) ∧ private_element a (on_instance b body w).
Proof.
  intros Hm (this & Ha & Hd) Hp. split.
  - destruct (heap w !! b) as [tb|] eqn:Hb;
      [|rewrite on_instance_dangling by done; now exists this].
    rewrite (on_instance_eq _ _ _ _ Hb).
    destruct (decide (a = b)) as [<-|Hab].
    + assert (tb = this) as -> by congruence.
      eexists. simpl. rewrite lookup_insert_eq. split; [done|].
      rewrite (mf_component _ Hm). now apply (mf_sync _ Hm).
    + exists this. simpl. rewrite lookup_insert_ne by done. split; [done|].
      rewrite (mf_frame _ Hm); [done|]. intros E. symmetry in E.
      now apply (Hp b this tb Ha Hb).
  - intros c ta' tc' Ha' Hc' Hca.
    destruct (on_instance_lookup _ _ _ _ _ Hm Ha') as (ta0 & Ha0 & -> & _).
    destruct (on_instance_lookup _ _ _ _ _ Hm Hc') as (tc0 & Hc0 & -> & _).
    now apply (Hp c ta0 tc0).
Qed.

Lemma synced_act a this x w :
  heap w !! a = Some this →
  synced a w → private_element a w →
  builds_elsewhere (getElement (component this)) w x →
  synced a (act x w) ∧ private_element a (act x w).
Proof.
  intros Ha Hs Hp Hx. destruct x as [idValue n|b|b|b v|id]; simpl.
  - simpl in Hx.
    destruct (getElementById idValue (host w)) as [el|] eqn:Hel;
      [|now rewrite (Timer_new_missing _ n _ Hel)].
    rewrite (Timer_new_found _ n _ _ Hel).
    assert (a ≠ fresh (dom (heap w))) as Hne.
    { intros E. assert (a ∈ dom (heap w)) as Hin by (apply elem_of_dom; eauto).
      rewrite E in Hin. now apply is_fresh in Hin. }
    destruct Hs as (this0 & Ha0 & Hd). assert (this0 = this) as -> by congruence.
    split.
    + exists this. simpl. rewrite lookup_insert_ne by done. split; [done|].
      unfold updateDisplay. rewrite displayed_setText_other; [done|].
      simpl. intros E. apply Hx. now rewrite E.
    + intros c ta' tc' Ha' Hc' Hca. simpl in Ha', Hc'.
      rewrite lookup_insert_ne in Ha' by done.
      assert (ta' = this) as -> by congruence.
      apply lookup_insert_Some in Hc' as [[_ <-]|[_ Hc']].
      * simpl. intros E. apply Hx. now rewrite E.
      * now apply (Hp c this tc').
  - apply synced_on_instance; [apply method_facts_start | done..].
  - apply synced_on_instance; [apply method_facts_reset | done..].
  - apply (synced_on_instance a b (λ this h, (set_callback v this, h)));
      [apply method_facts_assign | done..].
  - unfold fire. destruct (intervals (host w) !! id) as [b|]; [|done].
    apply synced_on_instance; [apply method_facts_tick | done..].
Qed.

End AlongRuns.

(** X13. Along any run of actions an instance stays in the store, bound to
    the same element and with the same initial time, and its remaining time
    never exceeds the initial time once it does not. *)
Theorem timer_fields_along_run
    (a : addr) (this : Timer.t) (xs : list Action) (w : World) :
  heap w !! a = Some this →
  ∃ this', heap (run xs w) !! a = Some this' ∧
    Timer.component this' = Timer.component this ∧
    Timer.initialTime this' = Timer.initialTime this ∧
    (Timer.timeRemaining this ≤ Timer.initialTime this →
     Timer.timeRemaining this' ≤ Timer.initialTime this').
Proof.
  revert this w. induction xs as [|x xs IH]; intros this w Ha.
  - exists this. done.
  - rewrite run_cons_act.
    destruct (act_keeps a this x w Ha) as (t1 & H1 & Hc1 & Hi1 & Hb1).
    destruct (IH t1 (act x w) H1) as (t2 & H2 & Hc2 & Hi2 & Hb2).
    exists t2. split; [done|]. split; [congruence|]. split; [congruence|].
    intros Hle. now apply Hb2, Hb1.
Qed.

Lemma timer_fields_along_run_witness :
  ∃ this', heap (run [ActFire 1%positive; ActReset 0%nat; ActStart 0%nat;
                      ActFire 2%positive] world_started) !! 0%nat = Some this' ∧
    Timer.initialTime this' = 3 ∧ Timer.timeRemaining this' ≤ 3.
Proof.
  destruct (timer_fields_along_run 0%nat
              (Timer.mk (mkGameComponent 1%nat) 3 3 (Some 1%positive)
                        (JFunction "gameOver"))
              [ActFire 1%positive; ActReset 0%nat; ActStart 0%nat; ActFire 2%positive]
              world_started eq_refl) as (this' & H & _ & Hi & Hb).
  exists this'. split; [exact H|]. split; [exact Hi|].
  rewrite Hi in Hb. apply Hb. simpl. lia.
Defined.

(** X14. The callback is only ever called by the tick that reaches 0.  A
    construction, [startCountdown], [reset] and an assignment to the
    callback field call nothing, and a tick calls nothing unless it takes the
    remaining time from 1 to 0 while the field holds a function, which it
    then calls exactly once. *)
Theorem callback_only_at_zero_tick (x : Action) (w : World) :
  calls (trace (host (act x w))) = calls (trace (host w)) ∨
  ∃ id a this f,
    x = ActFire id ∧
    intervals (host w) !! id = Some a ∧
    heap w !! a = Some this ∧
    Timer.timeRemaining this = 1 ∧
    Timer.countdownTimerEndCallback this = JFunction f ∧
    calls (trace (host (act x w))) = calls (trace (host w)) ++ [f].
Proof.
  destruct x as [idValue n|b|b|b v|id]; simpl.
  - left. destruct (getElementById idValue (host w)) as [el|] eqn:Hel.
    + rewrite (Timer_new_found _ n _ _ Hel). simpl. rewrite calls_app. cbn.
      apply app_nil_r.
    + now rewrite (Timer_new_missing _ n _ Hel).
  - left. apply startCountdown_calls.
  - left. apply reset_calls.
  - left. destruct (heap w !! b) as [this|] eqn:Hb.
    + now rewrite (assign_callback_eq _ _ _ _ Hb).
    + unfold Timer_assign_callback. now rewrite on_instance_dangling.
  - destruct (intervals (host w) !! id) as [a|] eqn:Hid;
      [|left; now rewrite fire_inactive].
    destruct (heap w !! a) as [this|] eqn:Ha;
      [|left; unfold fire; rewrite Hid; now rewrite on_instance_dangling].
    destruct (decide (Timer.timeRemaining this = 1)) as [H1|H1].
    + assert (calls (trace (host (fire id w))) =
              calls (trace (host w)) ++ fired (Timer.countdownTimerEndCallback this)) as E.
      { rewrite (fire_finish _ _ _ _ Ha Hid H1). simpl.
        rewrite trace_invoke, calls_app, calls_EvCall.
        rewrite calls_clearInterval_var. simpl. rewrite calls_app. cbn.
        now rewrite app_nil_r. }
      destruct (Timer.countdownTimerEndCallback this) as [| |f] eqn:Hcb.
      * left. rewrite E. apply app_nil_r.
      * left. rewrite E. apply app_nil_r.
      * right. exists id, a, this, f. done.
    + left. rewrite (fire_continue _ _ _ _ Ha Hid H1). simpl.
      rewrite calls_app. cbn. apply app_nil_r.
Qed.

(** X15. On an element no other Timer is bound to, the display always shows
    the remaining time: if it does so in a world, it does so after any run
    of actions that builds no new Timer on that element. *)
Theorem display_follows_time
    (a : addr) (this : Timer.t) (xs : list Action) (w : World) :
  heap w !! a = Some this →
  synced a w →
  private_element a w →
  Forall (builds_elsewhere (getElement (Timer.component this)) w) xs →
  synced a (run xs w).
Proof.
  revert this w. induction xs as [|x xs IH]; intros this w Ha Hs Hp Hxs; [done|].
  rewrite run_cons_act. inversion Hxs as [|? ? Hx Hrest]; subst.
  destruct (synced_act a this x w Ha Hs Hp Hx) as [Hs' Hp'].
  destruct (act_keeps a this x w Ha) as (this' & Ha' & Hc & _).
  apply (IH this' (act x w) Ha' Hs' Hp'). rewrite Hc.
  eapply Forall_impl; [exact Hrest|]. intros y Hy.
  destruct y; simpl in *; try done.
  unfold getElementById in *. now rewrite elementsById_act.
Qed.

Lemma display_follows_time_witness :
  synced 0%nat
    (run [ActNew "scoreboard" 9; ActStart 1%nat; ActFire 1%positive;
          ActFire 2%positive; ActReset 0%nat; ActFire 2%positive] world_started).
Proof.
  apply (display_follows_time 0%nat
           (Timer.mk (mkGameComponent 1%nat) 3 3 (Some 1%positive)
                     (JFunction "gameOver"))).
  - reflexivity.
  - eexists. split; reflexivity.
  - intros b ta tb Ha Hb Hne. exfalso. apply Hne.
    assert (dom (heap world_started) = {[0%nat]}) as Hdom by reflexivity.
    assert (b ∈ dom (heap world_started)) as Hs by (apply elem_of_dom; eauto).
    rewrite Hdom in Hs. now apply elem_of_singleton in Hs.
  - repeat constructor; simpl; discriminate.
Defined.

(** ** How the calls compose *)

(** X16. [reset] is idempotent in every state, running, idle or with
    overlapping ticks: a second [reset] right after the first changes
    neither the instances, nor the active intervals, nor any text; it only
    repeats the host calls. *)
Theorem reset_twice_is_reset_once (a : addr) (w : World) :
  let w1 := Timer_reset a w in
  let w2 := Timer_reset a w1 in
  heap w2 = heap w1 ∧
  intervals (host w2) = intervals (host w1) ∧
  innerText (host w2) = innerText (host w1) ∧
  next_interval (host w2) = next_interval (host w1) ∧
  calls (trace (host w2)) = calls (trace (host w)).
Proof.
  intros w1 w2. subst w1 w2.
  destruct (heap w !! a) as [this|] eqn:Ha.
  - rewrite (reset_eq _ _ _ Ha).
    set (this1 := Timer.set_timeRemaining (Timer.initialTime this) this).
    set (w1 := mkWorld _ _).
    assert (heap w1 !! a = Some this1) as Ha1 by apply lookup_insert_eq.
    rewrite (reset_eq _ _ _ Ha1). subst w1 this1. simpl.
    destruct (Timer.intervalId this) as [i|]; simpl.
    + split_and!; try done.
      * apply insert_insert_eq.
      * apply delete_id, lookup_delete_eq.
      * apply insert_insert_eq.
      * rewrite !calls_app. cbn. now rewrite !app_nil_r.
    + split_and!; try done.
      * apply insert_insert_eq.
      * apply insert_insert_eq.
      * rewrite !calls_app. cbn. now rewrite !app_nil_r.
  - unfold Timer_reset. rewrite (on_instance_dangling a _ w Ha).
    now rewrite (on_instance_dangling a _ w Ha).
Qed.

(** X17. Of two assignments to the callback field only the later one
    counts.  An assignment also commutes with every tick except the zero
    tick of the same instance: setting the callback before or after such a
    tick gives the same world. *)
Theorem callback_assignment_composes
    (a : addr) (v1 v2 : Callback) (id : positive) (w : World) :
  (intervals (host w) !! id = Some a →
   field Timer.timeRemaining a w ≠ Some 1) →
  Timer_assign_callback a v2 (Timer_assign_callback a v1 w) =
    Timer_assign_callback a v2 w ∧
  fire id (Timer_assign_callback a v1 w) =
    Timer_assign_callback a v1 (fire id w).
Proof.
  intros Hnz. destruct (heap w !! a) as [ta|] eqn:Ha.
  - rewrite !(assign_callback_eq a _ ta w Ha). split.
    + set (w1 := mkWorld _ _).
      assert (heap w1 !! a = Some (Timer.set_callback v1 ta)) as Ha1
        by apply lookup_insert_eq.
      rewrite (assign_callback_eq a v2 _ w1 Ha1). simpl.
      now rewrite insert_insert_eq.
    + set (w1 := mkWorld _ _).
      assert (heap w1 !! a = Some (Timer.set_callback v1 ta)) as Ha1
        by apply lookup_insert_eq.
      destruct (intervals (host w) !! id) as [b|] eqn:Hid;
        [|rewrite !fire_inactive by done; now rewrite (assign_callback_eq a _ ta w Ha)].
      destruct (decide (b = a)) as [->|Hba].
      * assert (Timer.timeRemaining ta ≠ 1) as H1.
        { intros E. apply (Hnz eq_refl). unfold field. rewrite Ha. simpl. now rewrite E. }
        rewrite (fire_continue a id _ w1 Ha1 Hid) by exact H1.
        rewrite (fire_continue a id _ w Ha Hid H1).
        set (w2 := mkWorld (<[a := Timer.set_timeRemaining _ ta]> _) _).
        assert (heap w2 !! a = Some (Timer.set_timeRemaining (Timer.timeRemaining ta - 1) ta))
          as Ha2 by apply lookup_insert_eq.
        rewrite (assign_callback_eq a v1 _ w2 Ha2). subst w1 w2. simpl.
        now rewrite !insert_insert_eq.
      * destruct (heap w !! b) as [tb|] eqn:Hb.
        -- assert (heap w1 !! b = Some tb) as Hb1
             by (subst w1; simpl; now rewrite lookup_insert_ne).
           rewrite (fire_eq id b tb w1 Hid Hb1), (fire_eq id b tb w Hid Hb).
           set (w2 := mkWorld (<[b := _]> (heap w)) _).
           assert (heap w2 !! a = Some ta) as Ha2
             by (subst w2; simpl; now rewrite lookup_insert_ne).
           rewrite (assign_callback_eq a v1 _ w2 Ha2). subst w1 w2. simpl.
           f_equal. now apply insert_insert_ne.
        -- assert (heap w1 !! b = None) as Hb1
             by (subst w1; simpl; now rewrite lookup_insert_ne).
           unfold fire at 1. simpl. rewrite Hid, on_instance_dangling by done.
           unfold fire. rewrite Hid, on_instance_dangling by done.
           now rewrite (assign_callback_eq a _ ta w Ha).
  - assert (∀ v w', heap w' !! a = None → Timer_assign_callback a v w' = w') as Hd.
    { intros v w' H. unfold Timer_assign_callback. now apply on_instance_dangling. }
    rewrite !(Hd _ w Ha). split; [done|].
    symmetry. apply Hd.
    unfold fire. destruct (intervals (host w) !! id) as [b|]; [|done].
    destruct (decide (a = b)) as [<-|Hab].
    + now rewrite on_instance_dangling.
    + now rewrite on_instance_heap_other.
Qed.

Lemma callback_assignment_composes_witness :
  fire 1%positive (Timer_assign_callback 0%nat (JFunction "playAgain") world_started) =
    Timer_assign_callback 0%nat (JFunction "playAgain") (fire 1%positive world_started) ∧
  Timer_assign_callback 0%nat JNull
    (Timer_assign_callback 0%nat (JFunction "playAgain") world_started) =
    Timer_assign_callback 0%nat JNull world_started.
Proof.
  destruct (callback_assignment_composes 0%nat (JFunction "playAgain") JNull
              1%positive world_started) as [H1 H2].
  - intros _. vm_compute. discriminate.
  - split; [exact H2 | exact H1].
Defined.

(** ** The id a tick cancels *)

Section TickIds.

Import Timer.

Lemma ticks_have_ids_on_instance b body w :
  cancels_only body → ticks_have_ids w → ticks_have_ids (on_instance b body w).
Proof.
  intros Hbody Hti.
  destruct (heap w !! b) as [this|] eqn:Hb;
    [|now rewrite on_instance_dangling].
  rewrite (on_instance_eq _ _ _ _ Hb).
  destruct (Hbody this (host w)) as (Hkeep & _ & Hint).
  intros id a Hid. simpl in Hid.
  assert (intervals (host w) !! id = Some a) as Hid0.
  { destruct Hint as [E|(i & _ & E)]; rewrite E in Hid; [done|].
    apply lookup_delete_Some in Hid. tauto. }
  destruct (Hti id a Hid0) as [i Hi]. exists i. unfold field in *. simpl.
  destruct (decide (a = b)) as [->|Hab].
  - rewrite lookup_insert_eq. simpl. rewrite Hkeep. now rewrite Hb in Hi.
  - now rewrite lookup_insert_ne.
Qed.

Lemma ticks_have_ids_act x w : ticks_have_ids w → ticks_have_ids (act x w).
Proof.
  intros Hti. destruct x as [idValue n|b|b|b v|id]; simpl.
  - destruct (getElementById idValue (host w)) as [el|] eqn:Hel;
      [|now rewrite (Timer_new_missing _ n _ Hel)].
    rewrite (Timer_new_found _ n _ _ Hel). intros id a Hid. simpl in Hid.
    destruct (Hti id a Hid) as [i Hi]. exists i. unfold field in *. simpl.
    destruct (decide (a = fresh (dom (heap w)))) as [->|Hne].
    + assert (heap w !! fresh (dom (heap w)) = None) as Hnone
        by apply not_elem_of_dom, is_fresh.
      now rewrite Hnone in Hi.
    + now rewrite lookup_insert_ne.
  - destruct (heap w !! b) as [this|] eqn:Hb;
      [|unfold Timer_startCountdown; now rewrite on_instance_dangling].
    rewrite (startCountdown_eq _ _ _ Hb). intros id a Hid. simpl in Hid.
    unfold field. simpl. destruct (decide (a = b)) as [->|Hab].
    + rewrite lookup_insert_eq. simpl. eauto.
    + rewrite lookup_insert_ne by done.
      apply lookup_insert_Some in Hid as [[_ ?]|[_ Hid]]; [congruence|].
      apply (Hti id a Hid).
  - apply ticks_have_ids_on_instance; [apply cancels_only_reset | done].
  - apply ticks_have_ids_on_instance; [apply cancels_only_assign | done].
  - unfold fire. destruct (intervals (host w) !! id) as [b|]; [|done].
    apply ticks_have_ids_on_instance; [apply cancels_only_tick | done].
Qed.

Lemma ticks_have_ids_run xs : ∀ w, ticks_have_ids w → ticks_have_ids (run xs w).
Proof.
  induction xs as [|x xs IH]; intros w Hti; [done|].
  rewrite run_cons_act. now apply IH, ticks_have_ids_act.
Qed.

End TickIds.

(** X18. A tick always has an id to cancel.  In every world reached from
    one where each active tick belongs to an instance with a defined
    [intervalId] (a page without intervals, say), each active tick still
    does; so a tick that takes the remaining time from 1 to 0 calls
    [clearInterval] exactly once, with the id [intervalId] holds, and that
    id is no longer active afterwards. *)
Theorem zero_tick_always_cancels
    (xs : list Action) (w : World) (id : positive) (a : addr) (this : Timer.t) :
  ticks_have_ids w →
  let w' := run xs w in
  intervals (host w') !! id = Some a →
  heap w' !! a = Some this →
  Timer.timeRemaining this = 1 →
  ∃ i, Timer.intervalId this = Some i ∧
       cleared (trace (host (fire id w'))) = cleared (trace (host w')) ++ [i] ∧
       intervals (host (fire id w')) = delete i (intervals (host w')).
Proof.
  intros Hti w' Hid Ha H1.
  pose proof (ticks_have_ids_run xs w Hti) as Hti'. fold w' in Hti'.
  destruct (Hti' id a Hid) as [i Hi]. unfold field in Hi. rewrite Ha in Hi.
  simpl in Hi. injection Hi as Hi. exists i. split; [done|].
  rewrite (fire_finish _ _ _ _ Ha Hid H1), Hi. simpl.
  rewrite trace_invoke, intervals_invoke. simpl.
  rewrite !cleared_app, cleared_EvCall. cbn. now rewrite !app_nil_r.
Qed.

Lemma zero_tick_always_cancels_witness :
  let w' := run [ActFire 1%positive; ActStart 0%nat; ActFire 1%positive]
                world_started in
  cleared (trace (host (fire 1%positive w'))) = [2%positive] ∧
  intervals (host (fire 1%positive w')) !! 1%positive = Some 0%nat.
Proof.
  intros w'.
  destruct (zero_tick_always_cancels
              [ActFire 1%positive; ActStart 0%nat; ActFire 1%positive]
              world_started 1%positive 0%nat
              (Timer.mk (mkGameComponent 1%nat) 3 1 (Some 2%positive)
                        (JFunction "gameOver")))
    as (i & Hi & Hc & Hint).
  - intros id a Hid. vm_compute in Hid.
    destruct id as [?|?|]; try discriminate Hid.
    injection Hid as <-. exists 1%positive. reflexivity.
  - reflexivity.
  - reflexivity.
  - reflexivity.
  - injection Hi as <-. split; [exact Hc|]. subst w'. rewrite Hint. reflexivity.
Defined.

(** X19. What [reset] and [startCountdown] do in every state of the
    instance.  [reset] puts the remaining time back and shows it, and of the
    instance's ticks it cancels the one [intervalId] names and no other;
    [intervalId] keeps its value.  [startCountdown] adds one tick under the
    id it stores in [intervalId], keeps the ticks there were, and changes
    neither the remaining time nor any text. *)
Theorem reset_and_start_in_any_state (a : addr) (this : Timer.t) (w : World) :
  heap w !! a = Some this →
  let r := Timer_reset a w in
  let s := Timer_startCountdown a w in
  (field Timer.timeRemaining a r = Some (Timer.initialTime this) ∧
   display a r = Some ("Time: " +:+ pretty (Timer.initialTime this)) ∧
   field Timer.intervalId a r = Some (Timer.intervalId this) ∧
   active_ticks a r =
     match Timer.intervalId this with
     | Some i => active_ticks a w ∖ {[i]}
     | None => active_ticks a w
     end) ∧
  (field Timer.timeRemaining a s = Some (Timer.timeRemaining this) ∧
   innerText (host s) = innerText (host w) ∧
   field Timer.intervalId a s = Some (Some (next_interval (host w))) ∧
   active_ticks a s = {[next_interval (host w)]} ∪ active_ticks a w ∧
   next_interval (host s) = Pos.succ (next_interval (host w)) ∧
   trace (host s) = trace (host w) ++ [EvSetInterval (next_interval (host w)) a]).
Proof.
  intros Ha r s. subst r s.
  rewrite (reset_eq _ _ _ Ha), (startCountdown_eq _ _ _ Ha).
  rewrite !field_insert, display_insert. simpl. split_and!; try done.
  - apply (displayed_setText (Timer.component this)).
  - destruct (Timer.intervalId this) as [i|]; simpl.
    + now apply active_ticks_delete.
    + now apply active_ticks_same.
  - now apply active_ticks_insert.
Qed.

Lemma reset_and_start_in_any_state_witness :
  let w := run [ActNew "timer" 3; ActStart 0%nat; ActStart 0%nat] world0 in
  active_ticks 0%nat (Timer_reset 0%nat w) = {[1%positive]} ∧
  active_ticks 0%nat (Timer_startCountdown 0%nat w) =
    {[1%positive; 2%positive; 3%positive]}.
Proof.
  intros w.
  destruct (reset_and_start_in_any_state 0%nat
              (Timer.mk (mkGameComponent 1%nat) 3 3 (Some 2%positive) JNull) w)
    as [(_ & _ & _ & Hr) (_ & _ & _ & Hs & _)].
  - reflexivity.
  - subst w. split.
    + rewrite Hr. reflexivity.
    + rewrite Hs. reflexivity.
Defined.

(** ** Sample sums of numbers *)

Example js_add_exact_in_safe_range :
  js_add 9007199254740990 1 = 9007199254740991 ∧
  js_add (-9007199254740990) (-1) = -9007199254740991 ∧
  js_add 5 (-8) = -3.
Proof. vm_compute. done. Qed.

(** Beyond 2^53 only every second integer is a number, beyond 2^54 every
    fourth; a sum half way between two numbers goes to the even one. *)
Example js_add_rounds_beyond_safe_range :
  js_add 9007199254740991 2 = 9007199254740992 ∧
  js_add 9007199254740992 1 = 9007199254740992 ∧
  js_add 9007199254740992 3 = 9007199254740996 ∧
  js_add 18014398509481984 2 = 18014398509481984 ∧
  js_add 18014398509481984 6 = 18014398509481992 ∧
  js_add (-9007199254740992) (-1) = -9007199254740992.
Proof. vm_compute. done. Qed.
